(** * Go-rpc: the connection-serving core (server.go, package codec)

    A shallow embedding of [ServeConn], [serveCodec], [readRequestHeader],
    [readRequest], [sendResponse] and [handleRequest], with the goroutines of
    one connection run by an explicit scheduler, and the properties of the
    specification proved over every schedule. *)

From Stdlib Require Import ZArith NArith String List Lia DecimalString DecimalN.
From stdpp Require Import base option list gmap strings.

Set Default Proof Using "Type".
Set Warnings "-clear-no-such-hyp".
Local Open Scope Z_scope.

(** ** Go errors

    The server looks at an error in two ways only: it compares it with the
    two sentinels of package io, and it takes its message. *)

Inductive error :=
| EOF                       (* io.EOF *)
| ErrUnexpectedEOF          (* io.ErrUnexpectedEOF *)
| ErrOther (msg : string).  (* any other error value *)

#[global] Instance error_eq_dec : EqDecision error.
Proof. solve_decision. Defined.

(** [err.Error()] *)
Definition error_Error (e : error) : string :=
  match e with
  | EOF => "EOF"
  | ErrUnexpectedEOF => "unexpected EOF"
  | ErrOther msg => msg
  end.

(** ** Package codec *)

Module codec.

(** [type Header struct]; [Seq] is a uint64, which the server only copies
    and prints. *)
Record Header := mkHeader {
  ServiceMethod : string;
  Seq : N;
  Error : string;
}.

(** [type Type string] *)
Definition Type_ := string.
Definition GobType : Type_ := "application/gob".
Definition JsonType : Type_ := "application/json".

(** The read side of a codec: the frames the peer sent, as this codec will
    decode them. Each has a header and either the argument string or the
    error that [ReadBody] reports for it. *)
Record frame := mkFrame {
  fheader : Header;
  fbody : string + error;
}.

(** The values the server hands to [Write] as a body ([interface{}]). *)
Inductive value :=
| VStruct               (* struct{}{} *)
| VString (s : string).

(** [type Codec interface]. A codec bound to a connection is given by the
    frames still to be read, the error [ReadHeader] reports once they are
    used up, and the bytes [Write] puts on the wire for a header and a
    body. *)
Record Codec := mkCodec {
  pending : list frame;
  exhausted : error;
  encode : Header -> value -> list Byte.byte;
}.

(** [ReadHeader(&h)]: the header of the next frame, or the final error. *)
Definition ReadHeader (cc : Codec) : Header + error :=
  match pending cc with
  | f :: _ => inl (fheader f)
  | [] => inr (exhausted cc)
  end.

(** [ReadBody(ptr)]: consumes the frame whose header was just read. *)
Definition ReadBody (cc : Codec) : (string + error) * Codec :=
  match pending cc with
  | f :: fs => (fbody f, mkCodec fs (exhausted cc) (encode cc))
  | [] => (inr (exhausted cc), cc)
  end.

End codec.

(** ** Package Go_rpc: data *)

Definition MagicNumber : Z := 0x3bef5c.

Module Option.
(** [type Option struct] *)
Record t := mk {
  MagicNumber : Z;
  CodecType : codec.Type_;
}.
End Option.

(** What the server sees of [conn io.ReadWriteCloser]: the outcome of
    [json.NewDecoder(conn).Decode(&opt)] at its start, and the traffic left
    on the connection when that call has returned, which is what the codec
    put on the connection reads. The decoder reads the connection in chunks
    and is dropped after the one record, with whatever it has buffered past
    it: [traffic] is what the peer sent less that share (see
    [after_handshake]). *)
Record Conn := mkConn {
  hello : Option.t + error;
  traffic : list codec.frame;
  hangup : error;
}.

(** [type NewCodecFunc func(io.ReadWriteCloser) Codec] *)
Definition NewCodecFunc := Conn -> codec.Codec.

(** [var invalidRequest = struct{}{}] *)
Definition invalidRequest : codec.value := codec.VStruct.

(** [type request struct]; [replyv] is the zero [reflect.Value] until the
    handler sets it. *)
Record request := mkRequest {
  h : codec.Header;
  argv : string;
  replyv : option string;
}.

(** The lines the server can log. *)
Inductive log_line :=
| LogOptionsError (e : error)             (* "rpc server: options error: " *)
| LogInvalidMagic (m : Z)                 (* "rpc server: invalid magic number %x" *)
| LogInvalidCodec (t : codec.Type_)       (* "rpc server: invalid codec type %s" *)
| LogReadHeaderError (e : error)          (* "rpc server: read header error:" *)
| LogReadArgvErr (e : error)              (* "rpc server: read argv err:" *)
| LogWriteError (e : error)               (* "rpc server: write response error:" *)
| LogRequest (hd : codec.Header) (a : string).  (* log.Println(req.h, req.argv.Elem()) *)

(** [fmt.Sprintf("%d", n)] for an unsigned [n]. *)
Definition decimal (n : N) : string := NilEmpty.string_of_uint (N.to_uint n).

(** [fmt.Sprintf("geerpc resp %d", seq)] *)
Definition Sprintf_resp (seq : N) : string :=
  String.append "geerpc resp " (decimal seq).

(** ** Reading a request *)

(** [readRequestHeader(cc)]. Its two returns are [nil, err] with a non-nil
    [err] and [&h, nil]: a header or an error, and the lines logged. *)
Definition readRequestHeader (cc : codec.Codec)
  : (codec.Header + error) * list log_line :=
  match codec.ReadHeader cc with
  | inr err =>
      (inr err,
       if bool_decide (err <> EOF) && bool_decide (err <> ErrUnexpectedEOF)
       then [LogReadHeaderError err] else [])
  | inl hd => (inl hd, [])
  end.

(** [readRequest(cc)]: a pointer to the request or nil, an error or nil,
    the codec after the call and the lines logged. The argument slot is
    a fresh string, left empty when [ReadBody] fails. *)
Definition readRequest (cc : codec.Codec)
  : option request * option error * codec.Codec * list log_line :=
  match readRequestHeader cc with
  | (inr err, logs) => (None, Some err, cc, logs)
  | (inl hd, logs) =>
      match codec.ReadBody cc with
      | (inr err, cc') =>
          (Some (mkRequest hd "" None), None, cc', logs ++ [LogReadArgvErr err])
      | (inl a, cc') =>
          (Some (mkRequest hd a None), None, cc', logs)
      end
  end.

(** ** The goroutines of one connection

    [ServeConn] runs in one goroutine (here [Main]); [serveCodec] starts one
    more per request ([Handler i], in the order they are started). A step of
    the model is one action of one goroutine; the scheduler picks which. *)

Inductive thread :=
| Main
| Handler (i : nat).

#[global] Instance thread_eq_dec : EqDecision thread.
Proof. solve_decision. Defined.

(** What can be observed of a run, in the order it happens. A call of
    [cc.Write] shows as its start, the bytes it puts on the wire one at a
    time, and its return. *)
Inductive event :=
| Log (l : log_line)
| WriteCall (t : thread) (hd : codec.Header) (b : codec.value)
| WriteByte (t : thread) (x : Byte.byte)
| WriteRet (t : thread) (r : option error)
| CodecClose        (* cc.Close() *)
| ConnClose.        (* conn.Close() *)

(** Where a goroutine stands inside [sendResponse]. *)
Inductive send_pc :=
| AtLock                          (* before sending.Lock() *)
| InWrite (todo : list Byte.byte) (* inside cc.Write, these bytes still to go *)
| AtUnlock.                       (* Write has returned; the deferred Unlock is next *)

(** Where the goroutine of [ServeConn] stands. *)
Inductive main_pc :=
| AtDecode                        (* ServeConn: before decoding the Option *)
| AtRead                          (* serveCodec: top of the for loop *)
| InSend (hd : codec.Header) (b : codec.value) (p : send_pc)
                                  (* serveCodec: inside the inline sendResponse *)
| AtWait                          (* serveCodec: wg.Wait() *)
| AtClose                         (* serveCodec: cc.Close() *)
| AtDeferred                      (* ServeConn: the deferred conn.Close() *)
| Returned.

(** Where a goroutine running [handleRequest] stands. *)
Inductive handler_pc :=
| Spawned                         (* started by the go statement, nothing run yet *)
| Sending (hd : codec.Header) (b : codec.value) (p : send_pc)
                                  (* inside sendResponse *)
| AtDone                          (* the deferred wg.Done() *)
| Exited.

Record handler := mkHandler {
  hreq : request;
  hpc : handler_pc;
}.

Record state := mkState {
  conn : Conn;
  main : main_pc;
  cc : option codec.Codec;   (* the codec of serveCodec, once chosen *)
  handlers : list handler;
  sending : bool;            (* the mutex: is it locked? *)
  wg : nat;                  (* the counter of the WaitGroup *)
  trace : list event;
}.

(** One action inside [sendResponse(cc, hd, b, sending)] (server.go:123-129)
    by goroutine [t]:
    the next place (or [None] once it has returned), the mutex, and the
    events. [Lock] cannot be taken while the mutex is held. [fault] is the
    environment's choice to make the running [Write] return an error now. *)
Definition sendResponse_step (t : thread) (enc : codec.Header -> codec.value -> list Byte.byte)
    (hd : codec.Header) (b : codec.value) (p : send_pc)
    (fault : option error) (locked : bool)
  : option (option send_pc * bool * list event) :=
  match p with
  | AtLock =>
      if locked then None
      else Some (Some (InWrite (enc hd b)), true, [WriteCall t hd b])
  | InWrite todo =>
      match fault with
      | Some err =>
          Some (Some AtUnlock, locked, [WriteRet t (Some err); Log (LogWriteError err)])
      | None =>
          match todo with
          | x :: todo' => Some (Some (InWrite todo'), locked, [WriteByte t x])
          | [] => Some (Some AtUnlock, locked, [WriteRet t None])
          end
      end
  | AtUnlock => Some (None, false, [])
  end.

Section Server.

(** [NewGobCodec] is defined in a file of package codec that is not part
    of the sources at hand. *)
Variable NewGobCodec : NewCodecFunc.

(** [var NewCodecFuncMap map[Type]NewCodecFunc], as [init] fills it. *)
Definition NewCodecFuncMap : gmap string NewCodecFunc :=
  <[codec.GobType := NewGobCodec]> ∅.

(** The first part of [ServeConn]: decode the option record, check the magic
    number, look the codec up. The codec put on the connection, or the line
    logged before the early return. The constructor gets the connection
    itself (line 61), so the codec starts where the JSON decoder stopped
    reading, not where the option record ends. *)
Definition negotiate (cn : Conn) : codec.Codec + log_line :=
  match hello cn with
  | inr err => inr (LogOptionsError err)
  | inl opt =>
      if bool_decide (Option.MagicNumber opt <> MagicNumber) then
        inr (LogInvalidMagic (Option.MagicNumber opt))
      else
        match NewCodecFuncMap !! Option.CodecType opt with
        | None => inr (LogInvalidCodec (Option.CodecType opt))
        | Some f => inl ((f : NewCodecFunc) cn)
        end
  end.

(** One action of the goroutine running [ServeConn] (server.go:45-62) and,
    inside it, [serveCodec] (server.go:68-86). One turn of the for loop up to
    the go statement is one action: [readRequest] uses the read side of the
    codec, which no other goroutine touches, and [wg.Add(1)] comes before the
    handler exists. *)
Definition ServeConn_step (fault : option error) (s : state) : option state :=
  let '(mkState cn pc c hs lk n tr) := s in
  match pc with
  | AtDecode =>                      (* lines 47-61 *)
      match negotiate cn with
      | inr l => Some (mkState cn AtDeferred c hs lk n (tr ++ [Log l]))
      | inl c0 => Some (mkState cn AtRead (Some c0) hs lk n tr)
      end
  | AtRead =>                        (* line 72 and the branches of lines 73-82 *)
      match c with
      | None => None
      | Some c0 =>
          match readRequest c0 with
          | (Some req, Some err, c1, logs) =>
              (* req.h.Error = err.Error(), then the inline sendResponse *)
              Some (mkState cn
                      (InSend (codec.mkHeader (codec.ServiceMethod (h req))
                                 (codec.Seq (h req)) (error_Error err))
                              invalidRequest AtLock)
                      (Some c1) hs lk n (tr ++ map Log logs))
          | (None, Some err, c1, logs) =>
              (* break *)
              Some (mkState cn AtWait (Some c1) hs lk n (tr ++ map Log logs))
          | (Some req, None, c1, logs) =>
              (* wg.Add(1); go server.handleRequest(cc, req, sending, wg) *)
              Some (mkState cn AtRead (Some c1) (hs ++ [mkHandler req Spawned]) lk (S n)
                      (tr ++ map Log logs))
          | (None, None, _, _) => None   (* handleRequest would run on a nil request *)
          end
      end
  | InSend hd b p =>
      match c with
      | None => None
      | Some c0 =>
          match sendResponse_step Main (codec.encode c0) hd b p fault lk with
          | Some (Some p', lk', evs) => Some (mkState cn (InSend hd b p') c hs lk' n (tr ++ evs))
          | Some (None, lk', evs) => Some (mkState cn AtRead c hs lk' n (tr ++ evs))
          | None => None
          end
      end
  | AtWait =>                        (* line 84: blocks while the counter is positive *)
      match n with
      | O => Some (mkState cn AtClose c hs lk n tr)
      | S _ => None
      end
  | AtClose =>                       (* line 85 *)
      Some (mkState cn AtDeferred c hs lk n (tr ++ [CodecClose]))
  | AtDeferred =>                    (* line 46, run when ServeConn returns *)
      Some (mkState cn Returned c hs lk n (tr ++ [ConnClose]))
  | Returned => None
  end.

(** One action of the [i]-th goroutine running [handleRequest]
    (server.go:132-139): the log line and the reply, then [sendResponse],
    then the deferred [wg.Done()]. *)
Definition handleRequest_step (i : nat) (fault : option error) (s : state) : option state :=
  let '(mkState cn pc c hs lk n tr) := s in
  match hs !! i with
  | None => None
  | Some (mkHandler req p) =>
      match p with
      | Spawned =>
          let reply := Sprintf_resp (codec.Seq (h req)) in
          Some (mkState cn pc c
                  (<[i := mkHandler (mkRequest (h req) (argv req) (Some reply))
                                    (Sending (h req) (codec.VString reply) AtLock)]> hs)
                  lk n (tr ++ [Log (LogRequest (h req) (argv req))]))
      | Sending hd b sp =>
          match c with
          | None => None
          | Some c0 =>
              match sendResponse_step (Handler i) (codec.encode c0) hd b sp fault lk with
              | Some (Some sp', lk', evs) =>
                  Some (mkState cn pc c (<[i := mkHandler req (Sending hd b sp')]> hs)
                          lk' n (tr ++ evs))
              | Some (None, lk', evs) =>
                  Some (mkState cn pc c (<[i := mkHandler req AtDone]> hs) lk' n (tr ++ evs))
              | None => None
              end
          end
      | AtDone =>
          match n with
          | O => None          (* panic: negative WaitGroup counter *)
          | S n' => Some (mkState cn pc c (<[i := mkHandler req Exited]> hs) lk n' tr)
          end
      | Exited => None
      end
  end.

Definition step (t : thread) (fault : option error) (s : state) : option state :=
  match t with
  | Main => ServeConn_step fault s
  | Handler i => handleRequest_step i fault s
  end.

(** A schedule names, step by step, the goroutine that moves and whether
    the environment fails a running [Write]. *)
Definition schedule := list (thread * option error).

Fixpoint run (sch : schedule) (s : state) : option state :=
  match sch with
  | [] => Some s
  | (t, fault) :: sch' =>
      match step t fault s with
      | Some s' => run sch' s'
      | None => None
      end
  end.

(** [ServeConn(conn)] is called. *)
Definition start (cn : Conn) : state :=
  mkState cn AtDecode None [] false O [].

Definition reachable (cn : Conn) (s : state) : Prop :=
  exists sch, run sch (start cn) = Some s.

End Server.

(** ** Observations on a run *)

#[global] Instance byte_eq_dec : EqDecision Byte.byte := Byte.byte_eq_dec.

Definition is_write (e : event) : bool :=
  match e with
  | WriteCall _ _ _ | WriteByte _ _ | WriteRet _ _ => true
  | _ => false
  end.

Definition is_close (e : event) : bool :=
  match e with
  | CodecClose | ConnClose => true
  | _ => false
  end.

(** The responses sent: the (header, body) pairs given to [cc.Write], in the
    order of the calls. *)
Fixpoint responses (tr : list event) : list (codec.Header * codec.value) :=
  match tr with
  | [] => []
  | WriteCall _ hd b :: tr' => (hd, b) :: responses tr'
  | _ :: tr' => responses tr'
  end.

(** The goroutines that called [cc.Write], in the order of the calls. *)
Fixpoint callers (tr : list event) : list thread :=
  match tr with
  | [] => []
  | WriteCall t _ _ :: tr' => t :: callers tr'
  | _ :: tr' => callers tr'
  end.

(** The reply [handleRequest] makes for a request with this header. *)
Definition reply_of (hd : codec.Header) : codec.value :=
  codec.VString (Sprintf_resp (codec.Seq hd)).

(** *** Frames on the wire

    The wire is read by an automaton that knows which call of [Write] is
    open and the bytes it still owes. A call may only start when none is
    open; a byte must be the next byte of the open call, from its caller; a
    return closes the open call, and a return without error only once every
    byte of the frame is out. The automaton gets stuck as soon as two calls
    overlap or a frame is torn. *)
Definition wire_state := option (thread * list Byte.byte).

Definition wire_step (enc : codec.Header -> codec.value -> list Byte.byte)
    (st : wire_state) (e : event) : option wire_state :=
  match e, st with
  | WriteCall t hd b, None => Some (Some (t, enc hd b))
  | WriteCall _ _ _, Some _ => None
  | WriteByte t x, Some (t', y :: todo) =>
      if bool_decide (t = t') && bool_decide (x = y) then Some (Some (t', todo)) else None
  | WriteByte _ _, _ => None
  | WriteRet t None, Some (t', []) => if bool_decide (t = t') then Some None else None
  | WriteRet t None, _ => None
  | WriteRet t (Some _), Some (t', _) => if bool_decide (t = t') then Some None else None
  | WriteRet _ (Some _), None => None
  | (Log _ | CodecClose | ConnClose), _ => Some st
  end.

Fixpoint wire_scan (enc : codec.Header -> codec.value -> list Byte.byte)
    (st : wire_state) (tr : list event) : option wire_state :=
  match tr with
  | [] => Some st
  | e :: tr' =>
      match wire_step enc st e with
      | Some st' => wire_scan enc st' tr'
      | None => None
      end
  end.

(** No two responses interleave and none is torn. *)
Definition frames_intact (enc : codec.Header -> codec.value -> list Byte.byte)
    (tr : list event) : bool :=
  match wire_scan enc None tr with Some _ => true | None => false end.

(** *** The goroutines of a state *)

Definition in_critical (p : send_pc) : bool :=
  match p with
  | AtLock => false
  | InWrite _ | AtUnlock => true
  end.

(** 1 when the handler is between [Lock] and [Unlock]. *)
Definition holds_lock (x : handler) : nat :=
  match hpc x with
  | Sending _ _ p => if in_critical p then 1 else 0
  | _ => 0
  end.

(** 1 when the handler has not yet called [wg.Done]. *)
Definition live (x : handler) : nat :=
  match hpc x with
  | Exited => 0
  | _ => 1
  end.

(** Has the handler called [cc.Write]? *)
Definition sent (p : handler_pc) : bool :=
  match p with
  | Spawned | Sending _ _ AtLock => false
  | _ => true
  end.

(** The join is over: the main goroutine is past [wg.Wait()]. *)
Definition drained (pc : main_pc) : bool :=
  match pc with
  | AtClose | AtDeferred | Returned => true
  | _ => false
  end.

(** *** A bound on the steps left *)

Definition send_cost (len : nat) (p : send_pc) : nat :=
  match p with
  | AtLock => len + 3
  | InWrite todo => length todo + 2
  | AtUnlock => 1
  end.

Definition handler_cost (enc : codec.Header -> codec.value -> list Byte.byte)
    (x : handler) : nat :=
  match hpc x with
  | Spawned => length (enc (h (hreq x)) (reply_of (h (hreq x)))) + 5
  | Sending hd b p => send_cost (length (enc hd b)) p + 1
  | AtDone => 1
  | Exited => 0
  end.

Definition frame_cost (enc : codec.Header -> codec.value -> list Byte.byte)
    (f : codec.frame) : nat :=
  length (enc (codec.fheader f) (reply_of (codec.fheader f))) + 6.

Definition main_cost (enc : codec.Header -> codec.value -> list Byte.byte)
    (pc : main_pc) : nat :=
  match pc with
  | AtDecode => 5
  | AtRead => 4
  | InSend hd b p => send_cost (length (enc hd b)) p + 4
  | AtWait => 3
  | AtClose => 2
  | AtDeferred => 1
  | Returned => 0
  end.

Definition encoder (s : state) : codec.Header -> codec.value -> list Byte.byte :=
  match cc s with
  | Some c => codec.encode c
  | None => fun _ _ => []
  end.

Definition unread (s : state) : list codec.frame :=
  match cc s with
  | Some c => codec.pending c
  | None => []
  end.

Definition cost_serving (s : state) : nat :=
  main_cost (encoder s) (main s)
  + sum_list_with (frame_cost (encoder s)) (unread s)
  + sum_list_with (handler_cost (encoder s)) (handlers s).

(** Before the handshake the bound is one more than that of the state the
    handshake leads to. *)
Definition cost (NewGobCodec : NewCodecFunc) (s : state) : nat :=
  match main s with
  | AtDecode =>
      S (match ServeConn_step NewGobCodec None s with
         | Some s' => cost_serving s'
         | None => 0
         end)
  | _ => cost_serving s
  end.

(** ** The invariant of a served connection *)

(** Inside [sendResponse] a handler sends the header of its own request and
    the reply made from its sequence number. *)
Definition handler_wf (x : handler) : Prop :=
  match hpc x with
  | Sending hd b _ => hd = h (hreq x) /\ b = reply_of (h (hreq x))
  | _ => True
  end.

(** The call the wire automaton has open is the one the handler inside
    [cc.Write] is making, with the same bytes still to go. *)
Definition writer_is (hs : list handler) (st : wire_state) : Prop :=
  match st with
  | Some (t, todo) =>
      exists i req hd b,
        t = Handler i /\ hs !! i = Some (mkHandler req (Sending hd b (InWrite todo)))
  | None =>
      forall i req hd b todo,
        hs !! i <> Some (mkHandler req (Sending hd b (InWrite todo)))
  end.

(** The close events a trace ends with, by the place of the main goroutine. *)
Definition tail_of (pc : main_pc) : list event :=
  match pc with
  | AtDeferred => [CodecClose]
  | Returned => [CodecClose; ConnClose]
  | _ => []
  end.

(** The calls of [Write] on a trace are those of the handlers that have
    taken the mutex, each with the header of its request and its reply. *)
Definition calls_match (tr : list event) (hs : list handler) : Prop :=
  forall t hd b,
    WriteCall t hd b ∈ tr <->
    exists i x, t = Handler i /\ hs !! i = Some x /\ sent (hpc x) = true
                /\ hd = h (hreq x) /\ b = reply_of hd.

(** [serving c0 s]: [s] is a state of [serveCodec] started on codec [c0]. *)
Record serving (c0 : codec.Codec) (s : state) : Prop := mkServing {
  sv_main : match main s with AtDecode | InSend _ _ _ => False | _ => True end;
  sv_cc : exists c, cc s = Some c /\ codec.encode c = codec.encode c0
            /\ codec.exhausted c = codec.exhausted c0
            /\ ((fun x => h (hreq x)) <$> handlers s) ++ (codec.fheader <$> codec.pending c)
               = codec.fheader <$> codec.pending c0
            /\ (main s <> AtRead -> codec.pending c = []);
  sv_wg : wg s = sum_list_with live (handlers s);
  sv_lock : sum_list_with holds_lock (handlers s) = if sending s then 1%nat else 0%nat;
  sv_join : drained (main s) = true -> Forall (fun x => hpc x = Exited) (handlers s);
  sv_wf : Forall handler_wf (handlers s);
  sv_wire : exists st, wire_scan (codec.encode c0) None (trace s) = Some st
                       /\ writer_is (handlers s) st;
  sv_calls : calls_match (trace s) (handlers s);
  sv_once : NoDup (callers (trace s));
  sv_tail : exists body, trace s = body ++ tail_of (main s)
                         /\ Forall (fun e => is_close e = false) body;
}.

(** Every state of a run of [ServeConn] on [cn] is the initial one, one of
    the two states of a refused handshake, or a state of [serveCodec]. *)
Definition invariant (NewGobCodec : NewCodecFunc) (cn : Conn) (s : state) : Prop :=
  s = start cn
  \/ (exists l, negotiate NewGobCodec cn = inr l
        /\ (s = mkState cn AtDeferred None [] false O [Log l]
            \/ s = mkState cn Returned None [] false O [Log l; ConnClose]))
  \/ (exists c0, negotiate NewGobCodec cn = inl c0 /\ conn s = cn /\ serving c0 s).

(** The moves of a handler, one constructor per action of [handleRequest_step]:
    the handler, the mutex and the counter before and after, and the events. *)
Inductive handler_move (enc : codec.Header -> codec.value -> list Byte.byte) (i : nat)
  : handler -> bool -> nat -> handler -> bool -> nat -> list event -> Prop :=
| hm_start req lk n :
    handler_move enc i (mkHandler req Spawned) lk n
      (mkHandler (mkRequest (h req) (argv req) (Some (Sprintf_resp (codec.Seq (h req)))))
                 (Sending (h req) (reply_of (h req)) AtLock))
      lk n [Log (LogRequest (h req) (argv req))]
| hm_lock req hd b n :
    handler_move enc i (mkHandler req (Sending hd b AtLock)) false n
      (mkHandler req (Sending hd b (InWrite (enc hd b)))) true n
      [WriteCall (Handler i) hd b]
| hm_byte req hd b x todo lk n :
    handler_move enc i (mkHandler req (Sending hd b (InWrite (x :: todo)))) lk n
      (mkHandler req (Sending hd b (InWrite todo))) lk n
      [WriteByte (Handler i) x]
| hm_ret req hd b lk n :
    handler_move enc i (mkHandler req (Sending hd b (InWrite []))) lk n
      (mkHandler req (Sending hd b AtUnlock)) lk n
      [WriteRet (Handler i) None]
| hm_fault req hd b todo err lk n :
    handler_move enc i (mkHandler req (Sending hd b (InWrite todo))) lk n
      (mkHandler req (Sending hd b AtUnlock)) lk n
      [WriteRet (Handler i) (Some err); Log (LogWriteError err)]
| hm_unlock req hd b lk n :
    handler_move enc i (mkHandler req (Sending hd b AtUnlock)) lk n
      (mkHandler req AtDone) false n []
| hm_done req lk n :
    handler_move enc i (mkHandler req AtDone) lk (S n)
      (mkHandler req Exited) lk n [].

(** The end-of-stream class of errors. *)
Definition is_eof (e : error) : bool :=
  bool_decide (e = EOF) || bool_decide (e = ErrUnexpectedEOF).

(** The request [readRequest] makes of a frame, and the lines it logs. *)
Definition request_of (f : codec.frame) : request :=
  mkRequest (codec.fheader f)
    (match codec.fbody f with inl a => a | inr _ => "" end) None.

Definition argv_logs (f : codec.frame) : list log_line :=
  match codec.fbody f with inl _ => [] | inr err => [LogReadArgvErr err] end.

Definition header_logs (e : error) : list log_line :=
  if is_eof e then [] else [LogReadHeaderError e].

(** The moves of the main goroutine inside [serveCodec] that can happen:
    the inline [sendResponse] is not among them. *)
Inductive main_move : state -> state -> Prop :=
| mm_eof cn c hs lk n tr :
    codec.pending c = [] ->
    main_move (mkState cn AtRead (Some c) hs lk n tr)
      (mkState cn AtWait (Some c) hs lk n
         (tr ++ map Log (header_logs (codec.exhausted c))))
| mm_spawn cn c f fs hs lk n tr :
    codec.pending c = f :: fs ->
    main_move (mkState cn AtRead (Some c) hs lk n tr)
      (mkState cn AtRead (Some (codec.mkCodec fs (codec.exhausted c) (codec.encode c)))
         (hs ++ [mkHandler (request_of f) Spawned]) lk (S n)
         (tr ++ map Log (argv_logs f)))
| mm_wait cn c hs lk tr :
    main_move (mkState cn AtWait c hs lk O tr) (mkState cn AtClose c hs lk O tr)
| mm_close cn c hs lk n tr :
    main_move (mkState cn AtClose c hs lk n tr)
      (mkState cn AtDeferred c hs lk n (tr ++ [CodecClose]))
| mm_deferred cn c hs lk n tr :
    main_move (mkState cn AtDeferred c hs lk n tr)
      (mkState cn Returned c hs lk n (tr ++ [ConnClose])).

(** The calls of [cc.Write] with their callers. *)
Fixpoint calls (tr : list event) : list (thread * codec.Header * codec.value) :=
  match tr with
  | [] => []
  | WriteCall t hd b :: tr' => (t, hd, b) :: calls tr'
  | _ :: tr' => calls tr'
  end.

(** The for loop of [serveCodec] has been left. *)
Definition past_loop (pc : main_pc) : bool :=
  match pc with
  | AtWait | AtClose | AtDeferred | Returned => true
  | _ => false
  end.

(** The response [handleRequest] sends for a frame. *)
Definition response_of (f : codec.frame) : codec.Header * codec.value :=
  (codec.fheader f, reply_of (codec.fheader f)).

(** The calls a finished connection has made, handler by handler. *)
Definition expected_calls (hs : list handler)
  : list (thread * codec.Header * codec.value) :=
  imap (fun i x => (Handler i, h (hreq x), reply_of (h (hreq x)))) hs.

(** The bytes put on the wire, in order. *)
Fixpoint wire_bytes (tr : list event) : list Byte.byte :=
  match tr with
  | [] => []
  | WriteByte _ x :: tr' => x :: wire_bytes tr'
  | _ :: tr' => wire_bytes tr'
  end.

(** The return of a [Write] with an error. *)
Definition failed_write (e : event) : bool :=
  match e with
  | WriteRet _ (Some _) => true
  | _ => false
  end.

(** The frames of a list of responses, one after the other. *)
Definition frames_of (enc : codec.Header -> codec.value -> list Byte.byte)
    (rs : list (codec.Header * codec.value)) : list Byte.byte :=
  concat (map (fun r => enc (fst r) (snd r)) rs).

(** ** The rest of package Go_rpc *)

(** [var DefaultOption = &Option{MagicNumber: MagicNumber, CodecType: codec.GobType}] *)
Definition DefaultOption : Option.t := Option.mk MagicNumber codec.GobType.

(** [type Server struct{}], [NewServer] and [DefaultServer]: a server has no
    field, so its methods do not depend on the receiver. *)
Definition Server := unit.
Definition NewServer : Server := tt.
Definition DefaultServer : Server := NewServer.

(** The frame [readRequest] turned into the request of a handler. *)
Definition served_as (f : codec.frame) (x : handler) : Prop :=
  h (hreq x) = codec.fheader f
  /\ argv (hreq x) = match codec.fbody f with inl a => a | inr _ => "" end.

(** *** Accepting connections

    What [Accept] sees of [lis net.Listener]: the results of the successive
    calls of [lis.Accept()], each a connection or an error. When the list is
    used up the call blocks. *)
Definition Listener := list (Conn + error).

(** The line [Accept] can log: "rpc server: accept error:". *)
Inductive accept_line :=
| LogAcceptError (e : error).

Inductive acceptor_pc :=
| Listening          (* in the for loop of Accept *)
| AcceptReturned.

(** A server: the goroutine of [Accept], and for every connection accepted
    the goroutines of its [ServeConn], which share nothing with those of the
    other connections. *)
Record server_state := mkServer {
  backlog : Listener;          (* results of lis.Accept() still to come *)
  acceptor : acceptor_pc;
  conns : list state;          (* one per go server.ServeConn(conn), in order *)
  accept_log : list accept_line;
}.

(** One turn of the for loop of [func (server *Server) Accept(lis net.Listener)]
    (server.go:143-152); [func Accept(lis)] (server.go:155) is the same on
    [DefaultServer]. *)
Definition Accept_step (server : Server) (sv : server_state) : option server_state :=
  match acceptor sv with
  | AcceptReturned => None
  | Listening =>
      match backlog sv with
      | [] => None                               (* lis.Accept() blocks *)
      | inr err :: rest =>                       (* log the error and return *)
          Some (mkServer rest AcceptReturned (conns sv)
                  (accept_log sv ++ [LogAcceptError err]))
      | inl cn :: rest =>                        (* go server.ServeConn(conn) *)
          Some (mkServer rest Listening (conns sv ++ [start cn]) (accept_log sv))
      end
  end.

(** A move of the server: the goroutine of [Accept], or goroutine [t] of the
    [k]-th connection. *)
Inductive server_move :=
| MoveAccept
| MoveConn (k : nat) (t : thread) (fault : option error).

Definition server_step (NewGobCodec : NewCodecFunc) (m : server_move)
    (sv : server_state) : option server_state :=
  match m with
  | MoveAccept => Accept_step DefaultServer sv
  | MoveConn k t fault =>
      match conns sv !! k with
      | None => None
      | Some s =>
          match step NewGobCodec t fault s with
          | Some s' =>
              Some (mkServer (backlog sv) (acceptor sv) (<[k := s']> (conns sv))
                      (accept_log sv))
          | None => None
          end
      end
  end.

Fixpoint server_run (NewGobCodec : NewCodecFunc) (ms : list server_move)
    (sv : server_state) : option server_state :=
  match ms with
  | [] => Some sv
  | m :: ms' =>
      match server_step NewGobCodec m sv with
      | Some sv' => server_run NewGobCodec ms' sv'
      | None => None
      end
  end.

(** [Accept(lis)] is called. *)
Definition listen (lis : Listener) : server_state :=
  mkServer lis Listening [] [].

Definition server_reachable (NewGobCodec : NewCodecFunc) (lis : Listener)
    (sv : server_state) : Prop :=
  exists ms, server_run NewGobCodec ms (listen lis) = Some sv.

(** The handlers started so far stand for the frames read so far, in the
    order they were read. *)
Definition arrival (c0 : codec.Codec) (s : state) : Prop :=
  exists c seen,
    cc s = Some c /\ codec.pending c0 = seen ++ codec.pending c
    /\ Forall2 served_as seen (handlers s).

(** Every handler past its first action has logged its request, and every
    call of [Write] on the trace comes after the log line of its request. *)
Definition logged (s : state) : Prop :=
  (forall i x, handlers s !! i = Some x -> hpc x <> Spawned ->
     Log (LogRequest (h (hreq x)) (argv (hreq x))) ∈ trace s)
  /\ (forall pre post t hd b, trace s = pre ++ WriteCall t hd b :: post ->
        exists a, Log (LogRequest hd a) ∈ pre).

(** The connections served are those the listener yielded before its first
    error, in order. *)
Definition accepted_so_far (lis : Listener) (sv : server_state) : Prop :=
  match acceptor sv with
  | Listening =>
      lis = ((fun s => inl (conn s)) <$> conns sv) ++ backlog sv
      /\ accept_log sv = []
  | AcceptReturned =>
      exists err,
        lis = ((fun s => inl (conn s)) <$> conns sv) ++ inr err :: backlog sv
        /\ accept_log sv = [LogAcceptError err]
  end.

(** *** What the peer sent

    A peer sends the option record, then its requests, then ends the
    stream. [buffered] is the number of those requests that had arrived and
    were read into the buffer of [json.NewDecoder(conn)] (server.go:48) by
    the time it returned the option record: none when the peer waits before
    it sends its first request, all of them when everything arrives in one
    piece. (A buffer that ends inside a request leaves the codec out of
    step with the stream; only whole requests are counted here.) *)
Record Peer := mkPeer {
  sent_option : Option.t + error;
  sent_requests : list codec.frame;
  sent_end : error;
  buffered : nat;
}.

(** The connection as [ServeConn] has it once the option record is decoded:
    the decoder is not kept, and the requests in its buffer go with it. *)
Definition after_handshake (p : Peer) : Conn :=
  mkConn (sent_option p) (drop (buffered p) (sent_requests p)) (sent_end p).

(** ** Sample connections *)

(** A two-byte framing: a marker, then a byte telling the kind of body. *)
Definition sample_encode (hd : codec.Header) (b : codec.value) : list Byte.byte :=
  [Byte.x01; match b with codec.VStruct => Byte.x00 | codec.VString _ => Byte.x02 end].

Definition sample_gob : NewCodecFunc :=
  fun cn => codec.mkCodec (traffic cn) (hangup cn) sample_encode.

Definition gob_option : Option.t := Option.mk MagicNumber codec.GobType.

(** A request whose body does not decode, then one whose header carries an
    error string and whose body decodes, then the end of the stream. *)
Definition sample_conn : Conn :=
  mkConn (inl gob_option)
    [codec.mkFrame (codec.mkHeader "Foo.Bar" 7 "") (inr (ErrOther "bad body"));
     codec.mkFrame (codec.mkHeader "Foo.Bar" 8 "boom") (inl "x")]
    EOF.

Definition run_main : thread * option error := (Main, None).
Definition run_handler (i : nat) : thread * option error := (Handler i, None).

(** One way to run [ServeConn] on [sample_conn] to its return: both requests
    are read, the second handler answers first. *)
Definition sample_schedule : list (thread * option error) :=
  [run_main; run_main; run_main; run_main;
   run_handler 0; run_handler 1;
   run_handler 1; run_handler 1; run_handler 1; run_handler 1; run_handler 1; run_handler 1;
   run_handler 0; run_handler 0; run_handler 0; run_handler 0; run_handler 0; run_handler 0;
   run_main; run_main; run_main].

(** The state [sample_schedule] leads to. *)
Definition sample_final : state :=
  default (start sample_conn) (run sample_gob sample_schedule (start sample_conn)).

(** The state after both requests are read and the second handler is in
    the middle of its write. *)
Definition sample_midway : state :=
  default (start sample_conn)
    (run sample_gob (take 8 sample_schedule) (start sample_conn)).

(** The state after both requests are read, before the end of the stream
    is seen. *)
Definition sample_at_eof : state :=
  default (start sample_conn)
    (run sample_gob (take 3 sample_schedule) (start sample_conn)).

(** A handshake with a wrong magic number, and one asking for the codec
    type that has no constructor. *)
Definition bad_magic_option : Option.t := Option.mk 0x3bef5d codec.GobType.
Definition json_option : Option.t := Option.mk MagicNumber codec.JsonType.

Definition bad_magic_conn : Conn :=
  mkConn (inl bad_magic_option) (traffic sample_conn) EOF.

Definition json_conn : Conn :=
  mkConn (inl json_option) (traffic sample_conn) EOF.

(** One request, whose body does not decode. *)
Definition bad_body_conn : Conn :=
  mkConn (inl gob_option)
    [codec.mkFrame (codec.mkHeader "Foo.Bar" 7 "") (inr (ErrOther "bad body"))]
    EOF.

Definition bad_body_schedule : list (thread * option error) :=
  [run_main; run_main; run_main;
   run_handler 0; run_handler 0; run_handler 0; run_handler 0; run_handler 0;
   run_handler 0; run_handler 0;
   run_main; run_main; run_main].

(** A connection whose option record does not decode. *)
Definition garbled_conn : Conn :=
  mkConn (inr (ErrOther "invalid character")) [] EOF.

(** A listener that yields two connections, then fails, with one more
    connection behind the failure. *)
Definition sample_listener : Listener :=
  [inl sample_conn; inl bad_magic_conn; inr (ErrOther "use of closed network connection");
   inl json_conn].

(** Both connections are accepted, the first is served for a while, the
    listener fails, the second connection is refused. *)
Definition sample_moves : list server_move :=
  [MoveAccept; MoveConn 0 Main None; MoveAccept; MoveConn 0 Main None;
   MoveAccept; MoveConn 1 Main None; MoveConn 0 Main None; MoveConn 1 Main None].

Definition sample_server : server_state :=
  default (listen sample_listener)
    (server_run sample_gob sample_moves (listen sample_listener)).

(** A peer that sends [DefaultOption] and two requests in one piece and
    closes: the first read of the JSON decoder takes all of it. *)
Definition eager_peer : Peer :=
  mkPeer (inl DefaultOption)
    [codec.mkFrame (codec.mkHeader "Foo.Bar" 1 "") (inl "x");
     codec.mkFrame (codec.mkHeader "Foo.Bar" 2 "") (inl "y")]
    EOF 2.

(** [ServeConn] run to its return on the connection [eager_peer] leaves. *)
Definition eager_schedule : list (thread * option error) :=
  [run_main; run_main; run_main; run_main; run_main].

(** * Properties *)

(** ** Reading requests *)

Lemma readRequestHeader_logs (e : error) :
  (if bool_decide (e <> EOF) && bool_decide (e <> ErrUnexpectedEOF)
   then [LogReadHeaderError e] else [])
  = header_logs e.
Proof. unfold header_logs, is_eof. repeat case_bool_decide; simpl; congruence. Qed.

Lemma readRequest_empty (c : codec.Codec) :
  codec.pending c = [] ->
  readRequest c = (None, Some (codec.exhausted c), c, header_logs (codec.exhausted c)).
Proof.
  intros Hp. unfold readRequest, readRequestHeader, codec.ReadHeader.
  rewrite Hp. by rewrite readRequestHeader_logs.
Qed.

Lemma readRequest_frame (c : codec.Codec) (f : codec.frame) (fs : list codec.frame) :
  codec.pending c = f :: fs ->
  readRequest c
  = (Some (request_of f), None,
     codec.mkCodec fs (codec.exhausted c) (codec.encode c), argv_logs f).
Proof.
  intros Hp. unfold readRequest, readRequestHeader, codec.ReadHeader, codec.ReadBody.
  rewrite Hp. unfold request_of, argv_logs. by destruct (codec.fbody f).
Qed.

(** [readRequest] never returns an error together with a request, and never
    neither. *)
Lemma readRequest_shape (c : codec.Codec) req err c' logs :
  readRequest c = (req, err, c', logs) ->
  (req = None /\ err <> None) \/ (req <> None /\ err = None).
Proof.
  destruct (codec.pending c) as [|f fs] eqn:Hp.
  - rewrite (readRequest_empty c Hp). intros [= <- <- <- <-]. by left.
  - rewrite (readRequest_frame c f fs Hp). intros [= <- <- <- <-]. by right.
Qed.

(** ** Runs *)

Section Runs.
Variable G : NewCodecFunc.

Lemma run_app (sch1 sch2 : schedule) (s : state) :
  run G (sch1 ++ sch2) s = run G sch1 s ≫= run G sch2.
Proof.
  revert s. induction sch1 as [|[t f] sch1 IH]; intros s; simpl; [done|].
  destruct (step G t f s); simpl; [apply IH | done].
Qed.

Lemma run_snoc (sch : schedule) t f (s s' : state) :
  run G (sch ++ [(t, f)]) s = Some s' <->
  exists s1, run G sch s = Some s1 /\ step G t f s1 = Some s'.
Proof.
  rewrite run_app. destruct (run G sch s) as [s1|]; simpl.
  - destruct (step G t f s1) eqn:Hs; split.
    + intros [= <-]. eauto.
    + intros (? & [= <-] & ?). congruence.
    + done.
    + intros (? & [= <-] & ?). congruence.
  - split; [done | by intros (? & ? & _)].
Qed.

Lemma reachable_start (cn : Conn) : reachable G cn (start cn).
Proof. by exists []. Qed.

Lemma reachable_step (cn : Conn) t f (s s' : state) :
  reachable G cn s -> step G t f s = Some s' -> reachable G cn s'.
Proof.
  intros [sch Hs] Hstep. exists (sch ++ [(t, f)]). apply run_snoc. eauto.
Qed.

Lemma reachable_run (cn : Conn) sch (s s' : state) :
  reachable G cn s -> run G sch s = Some s' -> reachable G cn s'.
Proof.
  intros [sch0 Hs] Hrun. exists (sch0 ++ sch). by rewrite run_app, Hs.
Qed.

(** Induction over the states of the runs on a connection. *)
Lemma reachable_ind (cn : Conn) (P : state -> Prop) :
  P (start cn) ->
  (forall t f s s', reachable G cn s -> P s -> step G t f s = Some s' -> P s') ->
  forall s, reachable G cn s -> P s.
Proof.
  intros H0 Hstep s [sch Hs]. revert s Hs.
  induction sch as [|[t f] sch IH] using rev_ind; intros s Hs.
  - simpl in Hs. by injection Hs as <-.
  - apply run_snoc in Hs as (s1 & Hs1 & Hst).
    apply (Hstep t f s1); [by exists sch | by apply IH | done].
Qed.

(** *** The moves behind the step function *)

Lemma handleRequest_step_move i f (s s' : state) :
  handleRequest_step i f s = Some s' ->
  exists x y lk' n' evs,
    handlers s !! i = Some x
    /\ handler_move (encoder s) i x (sending s) (wg s) y lk' n' evs
    /\ s' = mkState (conn s) (main s) (cc s) (<[i := y]> (handlers s)) lk' n'
               (trace s ++ evs).
Proof.
  destruct s as [cn pc c hs lk n tr]. unfold handleRequest_step, encoder. simpl.
  destruct (hs !! i) as [[req p]|] eqn:Hi; [|done].
  destruct p as [|hd b sp| |].
  - intros [= <-]. do 5 eexists. split; [done|]. split; [apply hm_start|done].
  - destruct c as [c0|]; [|done].
    destruct sp as [|todo|]; simpl.
    + destruct lk; [done|]. intros [= <-].
      do 5 eexists. split; [done|]. split; [apply hm_lock|done].
    + destruct f as [err|].
      * intros [= <-]. do 5 eexists. split; [done|]. split; [apply hm_fault|done].
      * destruct todo as [|x todo]; intros [= <-].
        -- do 5 eexists. split; [done|]. split; [apply hm_ret|done].
        -- do 5 eexists. split; [done|]. split; [apply hm_byte|done].
    + intros [= <-]. do 5 eexists. split; [done|]. split; [apply hm_unlock|done].
  - destruct n as [|n]; [done|]. intros [= <-].
    do 5 eexists. split; [done|]. split; [apply hm_done|]. by rewrite app_nil_r.
  - done.
Qed.

Lemma ServeConn_step_move f (s s' : state) :
  ServeConn_step G f s = Some s' ->
  match main s with AtDecode | InSend _ _ _ => False | _ => True end ->
  main_move s s'.
Proof.
  destruct s as [cn pc c hs lk n tr]. simpl.
  destruct pc; try done.
  - destruct c as [c0|]; [|done].
    destruct (codec.pending c0) as [|fr fs] eqn:Hp.
    + rewrite (readRequest_empty c0 Hp). intros [= <-] _. by apply mm_eof.
    + rewrite (readRequest_frame c0 fr fs Hp). intros [= <-] _. by apply mm_spawn.
  - destruct n; [|done]. intros [= <-] _. apply mm_wait.
  - intros [= <-] _. apply mm_close.
  - intros [= <-] _. apply mm_deferred.
Qed.

End Runs.

(** ** Lists of handlers and traces *)

Lemma sum_list_with_insert {A} (w : A -> nat) (l : list A) i (x y : A) :
  l !! i = Some x ->
  (sum_list_with w (<[i := y]> l) + w x = sum_list_with w l + w y)%nat.
Proof.
  revert i. induction l as [|a l IH]; intros [|i] Hi; simplify_eq/=; [lia|].
  specialize (IH _ Hi). lia.
Qed.

Lemma sum_list_with_lookup {A} (w : A -> nat) (l : list A) i (x : A) :
  l !! i = Some x -> (w x <= sum_list_with w l)%nat.
Proof.
  revert i. induction l as [|a l IH]; intros [|i] Hi; simplify_eq/=; [lia|].
  specialize (IH _ Hi). lia.
Qed.

Lemma sum_list_with_lookup2 {A} (w : A -> nat) (l : list A) i j (x y : A) :
  i <> j -> l !! i = Some x -> l !! j = Some y ->
  (w x + w y <= sum_list_with w l)%nat.
Proof.
  revert i j. induction l as [|a l IH]; intros [|i] [|j] Hij Hi Hj; simplify_eq/=.
  - pose proof (sum_list_with_lookup w l j y Hj). lia.
  - pose proof (sum_list_with_lookup w l i x Hi). lia.
  - assert (i <> j) as Hne by congruence.
    specialize (IH i j Hne Hi Hj). lia.
Qed.

Lemma fmap_insert_same {A B} (g : A -> B) (l : list A) i (x y : A) :
  l !! i = Some x -> g y = g x -> g <$> <[i := y]> l = g <$> l.
Proof.
  intros Hi Hg. rewrite list_fmap_insert, Hg.
  apply list_insert_id. by rewrite list_lookup_fmap, Hi.
Qed.

Lemma live_zero_exited (hs : list handler) :
  sum_list_with live hs = O -> Forall (fun x => hpc x = Exited) hs.
Proof.
  induction hs as [|[req p] hs IH]; simpl; [constructor|].
  intros Hsum. constructor.
  - unfold live in Hsum. simpl in *. destruct p; simpl in *; (done || lia).
  - apply IH. lia.
Qed.

Lemma exited_live_zero (hs : list handler) :
  Forall (fun x => hpc x = Exited) hs -> sum_list_with live hs = O.
Proof.
  induction 1 as [|[req p] hs Hx _ IH]; simpl; [done|].
  simpl in Hx. subst p. by rewrite IH.
Qed.

Lemma wire_scan_app enc st (tr1 tr2 : list event) :
  wire_scan enc st (tr1 ++ tr2) = wire_scan enc st tr1 ≫= fun st' => wire_scan enc st' tr2.
Proof.
  revert st. induction tr1 as [|e tr1 IH]; intros st; simpl; [done|].
  destruct (wire_step enc st e); simpl; [apply IH | done].
Qed.

Lemma wire_scan_logs enc st (ls : list log_line) :
  wire_scan enc st (map Log ls) = Some st.
Proof. induction ls; simpl; [done|]. by destruct st. Qed.

Lemma callers_app (tr1 tr2 : list event) :
  callers (tr1 ++ tr2) = callers tr1 ++ callers tr2.
Proof.
  induction tr1 as [|e tr1 IH]; simpl; [done|]. destruct e; simpl; by rewrite ?IH.
Qed.

Lemma callers_logs (ls : list log_line) : callers (map Log ls) = [].
Proof. by induction ls. Qed.

Lemma elem_of_callers (t : thread) (tr : list event) :
  t ∈ callers tr <-> exists hd b, WriteCall t hd b ∈ tr.
Proof.
  induction tr as [|e tr IH]; simpl.
  - rewrite elem_of_nil. split; [done|]. by intros (? & ? & ?%elem_of_nil).
  - assert ((exists hd b, WriteCall t hd b ∈ e :: tr) <->
            (exists hd b, WriteCall t hd b = e) \/ (exists hd b, WriteCall t hd b ∈ tr)) as ->.
    { setoid_rewrite elem_of_cons. naive_solver. }
    rewrite <- IH.
    destruct e; rewrite ?elem_of_cons; naive_solver.
Qed.

Lemma not_elem_of_logs (e : event) (ls : list log_line) :
  (forall l, e <> Log l) -> e ∉ map Log ls.
Proof.
  intros He Hin. apply list_elem_of_fmap in Hin as (l & -> & _). by apply (He l).
Qed.

(** ** The mutex *)

Lemma holds_unique (hs : list handler) i j (x y : handler) :
  (sum_list_with holds_lock hs <= 1)%nat ->
  hs !! i = Some x -> hs !! j = Some y ->
  holds_lock x = 1%nat -> holds_lock y = 1%nat -> i = j.
Proof.
  intros Hsum Hi Hj Hx Hy. destruct (decide (i = j)) as [|Hne]; [done|].
  pose proof (sum_list_with_lookup2 holds_lock hs i j x y Hne Hi Hj). lia.
Qed.

Lemma writer_is_unlocked (hs : list handler) (st : wire_state) :
  sum_list_with holds_lock hs = O -> writer_is hs st -> st = None.
Proof.
  intros Hsum Hw. destruct st as [[t todo]|]; [|done].
  destruct Hw as (i & req & hd & b & _ & Hi).
  pose proof (sum_list_with_lookup holds_lock hs i _ Hi) as Hle.
  change (1 <= sum_list_with holds_lock hs)%nat in Hle. lia.
Qed.

Lemma writer_is_at (hs : list handler) (st : wire_state) i req hd b todo :
  (sum_list_with holds_lock hs <= 1)%nat ->
  hs !! i = Some (mkHandler req (Sending hd b (InWrite todo))) ->
  writer_is hs st -> st = Some (Handler i, todo).
Proof.
  intros Hsum Hi Hw. destruct st as [[t todo']|]; simpl in Hw.
  - destruct Hw as (j & req' & hd' & b' & -> & Hj).
    assert (i = j) as <- by (by apply (holds_unique hs i j _ _ Hsum Hi Hj)).
    congruence.
  - by destruct (Hw i req hd b todo).
Qed.

Lemma writer_is_insert_other (hs : list handler) (st : wire_state) i (x y : handler) :
  hs !! i = Some x ->
  (forall hd b todo, hpc x <> Sending hd b (InWrite todo)) ->
  (forall hd b todo, hpc y <> Sending hd b (InWrite todo)) ->
  writer_is hs st -> writer_is (<[i := y]> hs) st.
Proof.
  intros Hi Hx Hy Hw. destruct st as [[t todo]|]; simpl in *.
  - destruct Hw as (j & req & hd & b & -> & Hj).
    exists j, req, hd, b. split; [done|].
    destruct (decide (i = j)) as [<-|Hne].
    + rewrite Hi in Hj. injection Hj as ->. by destruct (Hx hd b todo).
    + by rewrite list_lookup_insert_ne.
  - intros j req hd b todo Hj.
    apply list_lookup_insert_Some in Hj as [(Hij & Hyz & _)|(Hne & Hj)].
    + subst y. by destruct (Hy hd b todo).
    + by destruct (Hw j req hd b todo).
Qed.

Lemma writer_is_insert_open (hs : list handler) i (x : handler) req hd b todo :
  hs !! i = Some x ->
  writer_is (<[i := mkHandler req (Sending hd b (InWrite todo))]> hs)
    (Some (Handler i, todo)).
Proof.
  intros Hi. exists i, req, hd, b. split; [done|].
  apply list_lookup_insert_eq. by eapply lookup_lt_Some.
Qed.

Lemma writer_is_insert_closed (hs : list handler) i (x y : handler) :
  (sum_list_with holds_lock hs <= 1)%nat ->
  hs !! i = Some x -> holds_lock x = 1%nat ->
  (forall hd b todo, hpc y <> Sending hd b (InWrite todo)) ->
  writer_is (<[i := y]> hs) None.
Proof.
  intros Hsum Hi Hx Hy j req hd b todo Hj.
  apply list_lookup_insert_Some in Hj as [(Hij & Hyz & _)|(Hne & Hj)].
  - subst y. by destruct (Hy hd b todo).
  - destruct Hne. symmetry. by apply (holds_unique hs j i _ _ Hsum Hj Hi).
Qed.

(** ** The calls of [Write] on the trace *)

Lemma calls_match_steady (tr evs : list event) (hs : list handler) i (x y : handler) :
  hs !! i = Some x ->
  sent (hpc y) = sent (hpc x) -> h (hreq y) = h (hreq x) ->
  (forall t hd b, WriteCall t hd b ∉ evs) ->
  calls_match tr hs -> calls_match (tr ++ evs) (<[i := y]> hs).
Proof.
  intros Hi Hsent Hh Hevs Hm t hd b. rewrite elem_of_app, (Hm t hd b). split.
  - intros [(j & z & -> & Hj & Hs & -> & ->)|Hin]; [|by destruct (Hevs t hd b)].
    destruct (decide (i = j)) as [<-|Hne].
    + rewrite Hi in Hj. injection Hj as <-. exists i, y.
      rewrite list_lookup_insert_eq by (by eapply lookup_lt_Some).
      by rewrite Hsent, Hh.
    + exists j, z. by rewrite list_lookup_insert_ne.
  - intros (j & z & -> & Hj & Hs & -> & ->). left.
    apply list_lookup_insert_Some in Hj as [(Hij & Hyz & _)|(Hne & Hj)].
    + subst j z. exists i, x. by rewrite <- Hsent, <- Hh.
    + by exists j, z.
Qed.

Lemma calls_match_lock (tr : list event) (hs : list handler) i req hd b todo :
  hs !! i = Some (mkHandler req (Sending hd b AtLock)) ->
  hd = h req -> b = reply_of (h req) ->
  calls_match tr hs ->
  calls_match (tr ++ [WriteCall (Handler i) hd b])
    (<[i := mkHandler req (Sending hd b (InWrite todo))]> hs).
Proof.
  intros Hi -> -> Hm t hd' b'. rewrite elem_of_app, list_elem_of_singleton, (Hm t hd' b'). split.
  - intros [(j & z & -> & Hj & Hs & -> & ->)|[= -> -> ->]].
    + destruct (decide (i = j)) as [<-|Hne].
      * rewrite Hi in Hj. by injection Hj as <-.
      * exists j, z. by rewrite list_lookup_insert_ne.
    + eexists i, _. rewrite list_lookup_insert_eq by (by eapply lookup_lt_Some). done.
  - intros (j & z & -> & Hj & Hs & -> & ->).
    apply list_lookup_insert_Some in Hj as [(Hij & Hyz & _)|(Hne & Hj)].
    + subst j z. by right.
    + left. by exists j, z.
Qed.

Lemma calls_match_spawn (tr : list event) (ls : list log_line) (hs : list handler) req :
  calls_match tr hs ->
  calls_match (tr ++ map Log ls) (hs ++ [mkHandler req Spawned]).
Proof.
  intros Hm t hd b. rewrite elem_of_app, (Hm t hd b). split.
  - intros [(j & z & -> & Hj & Hs & -> & ->)|Hin].
    + exists j, z. by rewrite (lookup_app_l_Some _ _ _ _ Hj).
    + by apply not_elem_of_logs in Hin.
  - intros (j & z & -> & Hj & Hs & -> & ->). left.
    apply lookup_app_Some in Hj as [Hj|(_ & Hj)].
    + by exists j, z.
    + apply list_lookup_singleton_Some in Hj as [_ <-]. done.
Qed.

Lemma calls_match_events (tr evs : list event) (hs : list handler) :
  (forall t hd b, WriteCall t hd b ∉ evs) ->
  calls_match tr hs -> calls_match (tr ++ evs) hs.
Proof.
  intros Hevs Hm t hd b. rewrite elem_of_app, (Hm t hd b). split; [|by left].
  intros [?|Hin]; [done|]. by destruct (Hevs t hd b).
Qed.

(** ** The invariant is kept by every step *)

Lemma handler_move_facts enc i (x y : handler) lk n lk' n' evs :
  handler_move enc i x lk n y lk' n' evs ->
  hpc x <> Exited
  /\ (n' + live x = n + live y)%nat
  /\ h (hreq y) = h (hreq x)
  /\ (handler_wf x -> handler_wf y)
  /\ Forall (fun e => is_close e = false) evs.
Proof.
  destruct 1; (split; [done|]); (split; [unfold live; simpl; lia|]);
    (split; [done|]); (split; [|by repeat constructor]);
    unfold handler_wf; simpl; try done.
Qed.

Lemma tail_of_not_drained (pc : main_pc) : drained pc = false -> tail_of pc = [].
Proof. by destruct pc. Qed.

Lemma serving_handler_move (c0 : codec.Codec) cn pc c hs lk n tr i (x y : handler) lk' n' evs :
  serving c0 (mkState cn pc c hs lk n tr) ->
  hs !! i = Some x ->
  handler_move (codec.encode c0) i x lk n y lk' n' evs ->
  serving c0 (mkState cn pc c (<[i := y]> hs) lk' n' (tr ++ evs)).
Proof.
  intros [Hmain Hcc Hwg Hlock Hjoin Hwf Hwire Hcalls Honce Htail] Hi Hmove.
  simpl in *.
  destruct (handler_move_facts _ _ _ _ _ _ _ _ _ Hmove)
    as (Hlive & Hcount & Hh & Hwfy & Hevs).
  assert (drained pc = false) as Hnd.
  { destruct (drained pc) eqn:Hd; [|done].
    specialize (Hjoin eq_refl). rewrite Forall_lookup in Hjoin.
    by destruct Hlive; apply (Hjoin i). }
  pose proof (sum_list_with_insert live hs i x y Hi) as Hsl.
  pose proof (sum_list_with_insert holds_lock hs i x y Hi) as Hsh.
  assert (handler_wf x) as Hwfx by (rewrite Forall_lookup in Hwf; by apply (Hwf i)).
  destruct Hwire as (st & Hscan & Hst).
  constructor; simpl.
  - done.
  - destruct Hcc as (c1 & -> & ? & ? & Hfr & ?). exists c1.
    by rewrite (fmap_insert_same (fun x => h (hreq x)) hs i x y Hi Hh).
  - lia.
  - destruct lk; inversion Hmove; subst; unfold holds_lock in Hsh; simpl in Hsh;
      fold holds_lock in Hsh; lia.
  - by rewrite Hnd.
  - apply Forall_insert; auto.
  - rewrite wire_scan_app, Hscan. simpl.
    assert (sum_list_with holds_lock hs <= 1)%nat as Hle by (destruct lk; lia).
    inversion Hmove; subst; simpl.
    + exists st. split; [by destruct st|].
      by eapply writer_is_insert_other.
    + rewrite (writer_is_unlocked hs st Hlock Hst). eexists. split; [done|].
      by eapply writer_is_insert_open.
    + rewrite (writer_is_at hs st _ _ _ _ _ Hle Hi Hst). simpl.
      rewrite !bool_decide_eq_true_2 by done. simpl. eexists. split; [done|].
      by eapply writer_is_insert_open.
    + rewrite (writer_is_at hs st _ _ _ _ _ Hle Hi Hst). simpl.
      rewrite bool_decide_eq_true_2 by done. eexists. split; [done|].
      by eapply writer_is_insert_closed.
    + rewrite (writer_is_at hs st _ _ _ _ _ Hle Hi Hst). simpl.
      rewrite bool_decide_eq_true_2 by done. eexists. split; [done|].
      by eapply writer_is_insert_closed.
    + exists st. split; [done|]. by eapply writer_is_insert_other.
    + exists st. split; [done|]. by eapply writer_is_insert_other.
  - inversion Hmove; subst;
      try (apply (calls_match_steady tr _ hs i _ _ Hi); [done|done| |done];
           intros t hd' b' Hin;
           repeat (apply elem_of_cons in Hin as [Hin|Hin]; [done|]);
           by apply elem_of_nil in Hin).
    unfold handler_wf in Hwfx. simpl in Hwfx. destruct Hwfx as [Hhd Hb].
    by apply calls_match_lock.
  - rewrite callers_app.
    inversion Hmove; subst; simpl; rewrite ?app_nil_r; try done.
    apply NoDup_app. split; [done|]. split; [|apply NoDup_singleton].
    intros t Ht ->%list_elem_of_singleton.
    apply elem_of_callers in Ht as (hd' & b' & Hin).
    apply Hcalls in Hin as (j & z & [= <-] & Hj & Hs & _).
    rewrite Hi in Hj. by injection Hj as <-.
  - destruct Htail as (body & -> & Hbody). rewrite (tail_of_not_drained pc Hnd).
    exists (body ++ evs). rewrite !app_nil_r. split; [done|].
    by apply Forall_app.
Qed.

Lemma writer_is_spawn (hs : list handler) (st : wire_state) req :
  writer_is hs st -> writer_is (hs ++ [mkHandler req Spawned]) st.
Proof.
  intros Hw. destruct st as [[t todo]|]; simpl in *.
  - destruct Hw as (j & req' & hd & b & -> & Hj).
    exists j, req', hd, b. split; [done|]. by apply lookup_app_l_Some.
  - intros j req' hd b todo Hj.
    apply lookup_app_Some in Hj as [Hj|(_ & Hj)].
    + by destruct (Hw j req' hd b todo).
    + by apply list_lookup_singleton_Some in Hj as [_ ?].
Qed.

Lemma logs_not_close (ls : list log_line) :
  Forall (fun e => is_close e = false) (map Log ls).
Proof. induction ls; by constructor. Qed.

Lemma serving_main_move (c0 : codec.Codec) (s s' : state) :
  serving c0 s -> main_move s s' -> serving c0 s'.
Proof.
  intros [Hmain Hcc Hwg Hlock Hjoin Hwf Hwire Hcalls Honce Htail] Hmove.
  destruct Hwire as (st & Hscan & Hst).
  destruct Htail as (body & Htr & Hbody).
  destruct Hmove as [cn c hs lk n tr Hp|cn c fr fs hs lk n tr Hp|cn c hs lk tr
                    |cn c hs lk n tr|cn c hs lk n tr];
    simpl in *; constructor; simpl; try done.
  - destruct Hcc as (c1 & [= <-] & ? & ? & ? & _). by exists c.
  - exists st. rewrite wire_scan_app, Hscan. simpl. by rewrite wire_scan_logs.
  - apply calls_match_events; [|done]. intros t hd b. by apply not_elem_of_logs.
  - by rewrite callers_app, callers_logs, app_nil_r.
  - exists (body ++ map Log (header_logs (codec.exhausted c))).
    rewrite app_nil_r in *. subst tr. split; [done|].
    apply Forall_app. split; [done | apply logs_not_close].
  - destruct Hcc as (c1 & [= <-] & Henc & Hex & Hfr & _).
    eexists. split; [done|]. simpl. repeat split; try done.
    rewrite Hp in Hfr. rewrite fmap_app, <- app_assoc. done.
  - rewrite sum_list_with_app. simpl. lia.
  - rewrite sum_list_with_app. simpl. lia.
  - apply Forall_app. split; [done|]. by repeat constructor.
  - exists st. rewrite wire_scan_app, Hscan. simpl. rewrite wire_scan_logs.
    split; [done|]. by apply writer_is_spawn.
  - by apply calls_match_spawn.
  - by rewrite callers_app, callers_logs, app_nil_r.
  - exists (body ++ map Log (argv_logs fr)).
    rewrite app_nil_r in *. subst tr. split; [done|].
    apply Forall_app. split; [done | apply logs_not_close].
  - destruct Hcc as (c1 & -> & ? & ? & ? & Hpend). exists c1.
    repeat split; try done. intros _. by apply Hpend.
  - intros _. apply live_zero_exited. by rewrite <- Hwg.
  - by exists st.
  - by exists body.
  - destruct Hcc as (c1 & -> & ? & ? & ? & Hpend). exists c1.
    repeat split; try done. intros _. by apply Hpend.
  - exists st. by rewrite wire_scan_app, Hscan.
  - apply calls_match_events; [|done]. intros t hd b.
    by intros ?%list_elem_of_singleton.
  - by rewrite callers_app, app_nil_r.
  - exists body. rewrite app_nil_r in Htr. by subst tr.
  - destruct Hcc as (c1 & -> & ? & ? & ? & Hpend). exists c1.
    repeat split; try done. intros _. by apply Hpend.
  - exists st. by rewrite wire_scan_app, Hscan.
  - apply calls_match_events; [|done]. intros t hd b.
    by intros ?%list_elem_of_singleton.
  - by rewrite callers_app, app_nil_r.
  - exists body. subst tr. by rewrite <- app_assoc.
Qed.

Lemma serving_init (c0 : codec.Codec) (cn : Conn) :
  serving c0 (mkState cn AtRead (Some c0) [] false O []).
Proof.
  constructor; simpl; try done.
  - exists c0. by repeat split.
  - exists None. split; [done|]. by intros i req hd b todo.
  - intros t hd b. split; [by intros ?%elem_of_nil|].
    by intros (i & x & _ & Hi & _).
  - constructor.
  - by exists [].
Qed.

Lemma main_move_conn (s s' : state) : main_move s s' -> conn s' = conn s.
Proof. by destruct 1. Qed.

Section Invariant.
Variable G : NewCodecFunc.

Lemma serving_step (c0 : codec.Codec) t f (s s' : state) :
  serving c0 s -> step G t f s = Some s' -> serving c0 s' /\ conn s' = conn s.
Proof.
  intros Hserv Hstep. destruct t as [|i]; simpl in Hstep.
  - apply ServeConn_step_move in Hstep; [|by apply (sv_main c0)].
    split; [by apply (serving_main_move c0 s) | by apply main_move_conn].
  - apply handleRequest_step_move in Hstep as (x & y & lk' & n' & evs & Hi & Hmove & ->).
    split; [|done].
    assert (encoder s = codec.encode c0) as Henc.
    { destruct (sv_cc c0 s Hserv) as (c1 & Hc & Henc & _).
      unfold encoder. by rewrite Hc. }
    rewrite Henc in Hmove. destruct s as [cn' pc c hs lk n tr]. simpl in *.
    by eapply serving_handler_move.
Qed.

Lemma invariant_step (cn : Conn) t f (s s' : state) :
  invariant G cn s -> step G t f s = Some s' -> invariant G cn s'.
Proof.
  intros [->|[(l & Hneg & [->| ->])|(c0 & Hneg & Hcn & Hserv)]] Hstep.
  - destruct t as [|i]; simpl in Hstep; [|done].
    destruct (negotiate G cn) as [c0|l] eqn:Hneg; injection Hstep as <-.
    + right. right. exists c0. split; [done|]. split; [done|]. apply serving_init.
    + right. left. exists l. split; [done|]. by left.
  - destruct t as [|i]; simpl in Hstep; [|done]. injection Hstep as <-.
    right. left. exists l. split; [done|]. by right.
  - by destruct t.
  - right. right. exists c0. split; [done|].
    destruct (serving_step c0 t f s s' Hserv Hstep) as [? ->]. done.
Qed.

(** Every state of every run satisfies the invariant. *)
Lemma reachable_invariant (cn : Conn) (s : state) :
  reachable G cn s -> invariant G cn s.
Proof.
  apply reachable_ind; [by left|].
  intros t f s0 s1 _. apply invariant_step.
Qed.

End Invariant.

(** ** Every run ends *)

Lemma handler_move_cost enc i (x y : handler) lk n lk' n' evs :
  handler_move enc i x lk n y lk' n' evs ->
  (handler_cost enc y < handler_cost enc x)%nat.
Proof. destruct 1; unfold handler_cost; simpl; lia. Qed.

Lemma main_move_cost (s s' : state) :
  main_move s s' -> (cost_serving s' < cost_serving s)%nat.
Proof.
  destruct 1 as [cn c hs lk n tr Hp|cn c fr fs hs lk n tr Hp|cn c hs lk tr
                |cn c hs lk n tr|cn c hs lk n tr];
    unfold cost_serving, encoder, unread; simpl; try lia.
  rewrite Hp, sum_list_with_app. simpl.
  assert (handler_cost (codec.encode c) (mkHandler (request_of fr) Spawned) + 1
          = frame_cost (codec.encode c) fr)%nat as Hfr by (unfold frame_cost, handler_cost; simpl; lia).
  lia.
Qed.

Lemma sum_list_with_pos {A} (w : A -> nat) (l : list A) :
  (0 < sum_list_with w l)%nat -> exists i x, l !! i = Some x /\ (0 < w x)%nat.
Proof.
  induction l as [|a l IH]; simpl; [lia|]. intros Hpos.
  destruct (w a) as [|k] eqn:Hwa.
  - destruct IH as (i & x & Hi & Hx); [lia|]. by exists (S i), x.
  - exists O, a. split; [done | lia].
Qed.

Section Termination.
Variable G : NewCodecFunc.

Lemma serving_cost (c0 : codec.Codec) (s : state) :
  serving c0 s -> cost G s = cost_serving s.
Proof. intros Hs. pose proof (sv_main c0 s Hs). unfold cost. by destruct (main s). Qed.

Lemma cost_step (cn : Conn) t f (s s' : state) :
  invariant G cn s -> step G t f s = Some s' -> (cost G s' < cost G s)%nat.
Proof.
  intros Hinv Hstep.
  destruct Hinv as [->|[(l & Hneg & [->| ->])|(c0 & Hneg & Hcn & Hserv)]].
  - destruct t as [|i]; simpl in Hstep; [|done].
    unfold cost at 2. simpl.
    destruct (negotiate G cn); injection Hstep as <-; unfold cost; simpl; lia.
  - destruct t as [|i]; simpl in Hstep; [|done]. injection Hstep as <-.
    by compute.
  - by destruct t.
  - destruct (serving_step G c0 t f s s' Hserv Hstep) as [Hserv' _].
    rewrite (serving_cost c0 s Hserv), (serving_cost c0 s' Hserv').
    destruct t as [|i]; simpl in Hstep.
    + apply ServeConn_step_move in Hstep; [|by apply (sv_main c0)].
      by apply main_move_cost.
    + apply handleRequest_step_move in Hstep as (x & y & lk' & n' & evs & Hi & Hmove & ->).
      apply handler_move_cost in Hmove.
      pose proof (sum_list_with_insert (handler_cost (encoder s)) _ i x y Hi).
      unfold cost_serving, encoder, unread in *. simpl in *. lia.
Qed.

(** A run from a state of a run is never longer than the bound of that
    state. *)
Lemma run_bound (cn : Conn) sch (s s' : state) :
  invariant G cn s -> run G sch s = Some s' ->
  (length sch + cost G s' <= cost G s)%nat.
Proof.
  revert s. induction sch as [|[t f] sch IH]; intros s Hinv Hrun; simpl in *.
  - injection Hrun as <-. lia.
  - destruct (step G t f s) as [s1|] eqn:Hstep; [|done].
    pose proof (cost_step cn t f s s1 Hinv Hstep).
    pose proof (invariant_step G cn t f s s1 Hinv Hstep) as Hinv1.
    specialize (IH s1 Hinv1 Hrun). lia.
Qed.

(** No deadlock: while [ServeConn] has not returned, some goroutine can
    move, with no failure of a write needed. *)
Lemma progress (cn : Conn) (s : state) :
  invariant G cn s -> main s <> Returned ->
  exists t s', step G t None s = Some s'.
Proof.
  intros [->|[(l & Hneg & [->| ->])|(c0 & Hneg & Hcn & Hserv)]] Hpc.
  - exists Main. simpl. destruct (negotiate G cn); eauto.
  - exists Main. simpl. eauto.
  - done.
  - destruct Hserv as [Hmain Hcc Hwg Hlock Hjoin Hwf _ _ _ _].
    destruct s as [cn' pc c hs lk n tr]. simpl in *.
    destruct Hcc as (c1 & -> & _).
    destruct pc; try done; try (exists Main; simpl; eauto; fail).
    + exists Main. simpl. destruct (codec.pending c1) as [|fr fs] eqn:Hp.
      * rewrite (readRequest_empty c1 Hp). eauto.
      * rewrite (readRequest_frame c1 fr fs Hp). eauto.
    + destruct n as [|n]; [exists Main; simpl; eauto|].
      destruct (sum_list_with_pos live hs) as (i & [req p] & Hi & Hlive); [lia|].
      destruct p as [|hd b sp| |]; [| | |by compute in Hlive; lia].
      * exists (Handler i). simpl. rewrite Hi. eauto.
      * destruct sp as [|todo|].
        -- destruct lk.
           ++ destruct (sum_list_with_pos holds_lock hs) as (j & [req' p'] & Hj & Hh);
                [lia|].
              exists (Handler j). simpl. rewrite Hj.
              destruct p' as [|hd' b' [|todo'|]| |];
                try (by compute in Hh; lia); simpl; [destruct todo'|]; eauto.
           ++ exists (Handler i). simpl. rewrite Hi. simpl. eauto.
        -- exists (Handler i). simpl. rewrite Hi. simpl. destruct todo; eauto.
        -- exists (Handler i). simpl. rewrite Hi. simpl. eauto.
      * exists (Handler i). simpl. rewrite Hi. eauto.
Qed.

(** From every state of a run, [ServeConn] can be run to its return, and
    without any write failing. *)
Lemma run_to_return (cn : Conn) (s : state) :
  invariant G cn s ->
  exists sch s', run G sch s = Some s' /\ main s' = Returned
                 /\ Forall (fun p => snd p = None) sch.
Proof.
  remember (cost G s) as k eqn:Hk. revert s Hk.
  induction (lt_wf k) as [k _ IH]. intros s -> Hinv.
  destruct (main s) eqn:Hpc;
    try (destruct (progress cn s Hinv) as (t & s1 & Hstep); [congruence|];
         destruct (IH (cost G s1) (cost_step cn t None s s1 Hinv Hstep) s1 eq_refl
                     (invariant_step G cn t None s s1 Hinv Hstep))
           as (sch & s' & Hrun & Hret & Hnf);
         exists ((t, None) :: sch), s'; simpl; rewrite Hstep;
         split; [done|]; split; [done|]; by constructor).
  exists [], s. by repeat split.
Qed.

End Termination.

(** ** Closing *)

Lemma split_at_close (body pre post rest : list event) :
  Forall (fun e => is_close e = false) body ->
  body ++ CodecClose :: rest = pre ++ CodecClose :: post ->
  CodecClose ∉ rest ->
  pre = body /\ post = rest.
Proof.
  revert pre. induction body as [|e body IH]; intros pre Hbody Heq Hrest.
  - destruct pre as [|e' pre]; simpl in Heq.
    + by injection Heq as <-.
    + injection Heq as <- ->. destruct Hrest.
      apply elem_of_app. right. apply list_elem_of_here.
  - apply Forall_cons in Hbody as [He Hbody].
    destruct pre as [|e' pre]; simpl in Heq.
    + injection Heq as ->. done.
    + injection Heq as <- Heq. by destruct (IH pre Hbody Heq Hrest) as [-> ->].
Qed.

Lemma not_close_not_elem (body : list event) :
  Forall (fun e => is_close e = false) body -> (CodecClose ∉ body) /\ (ConnClose ∉ body).
Proof.
  intros Hbody. rewrite Forall_forall in Hbody.
  split; intros Hin; by apply Hbody in Hin.
Qed.

(** ** Responses *)

Lemma callers_calls (tr : list event) : callers tr = (fun c => fst (fst c)) <$> calls tr.
Proof. induction tr as [|e tr IH]; [done|]. destruct e; simpl; by rewrite ?IH. Qed.

Lemma responses_calls (tr : list event) :
  responses tr = (fun c => (snd (fst c), snd c)) <$> calls tr.
Proof. induction tr as [|e tr IH]; [done|]. destruct e; simpl; by rewrite ?IH. Qed.

Lemma elem_of_calls t hd b (tr : list event) :
  (t, hd, b) ∈ calls tr <-> WriteCall t hd b ∈ tr.
Proof.
  induction tr as [|e tr IH]; simpl.
  - by rewrite !elem_of_nil.
  - destruct e; rewrite ?elem_of_cons, IH; naive_solver.
Qed.

Lemma calls_permutation (tr : list event) (hs : list handler) :
  calls_match tr hs -> NoDup (callers tr) ->
  Forall (fun x => sent (hpc x) = true) hs ->
  calls tr ≡ₚ expected_calls hs.
Proof.
  intros Hm Hnd Hsent. apply NoDup_Permutation.
  - apply (NoDup_fmap_1 (fun c => fst (fst c))). by rewrite <- callers_calls.
  - apply (NoDup_fmap_1 (fun c => fst (fst c))). unfold expected_calls.
    rewrite fmap_imap.
    rewrite (imap_ext _ (fun i _ => Handler i)) by done.
    rewrite imap_seq_0. apply NoDup_fmap_2; [|apply NoDup_seq].
    by intros i j [= ->].
  - intros [[t hd] b]. rewrite elem_of_calls, (Hm t hd b).
    unfold expected_calls. rewrite elem_of_lookup_imap. split.
    + intros (i & x & -> & Hi & _ & -> & ->). by exists i, x.
    + intros (i & x & [= -> -> ->] & Hi). exists i, x.
      rewrite Forall_lookup in Hsent. repeat split; try done. by apply (Hsent i).
Qed.

Lemma responses_permutation (tr : list event) (hs : list handler) :
  calls_match tr hs -> NoDup (callers tr) ->
  Forall (fun x => sent (hpc x) = true) hs ->
  responses tr ≡ₚ (fun hd => (hd, reply_of hd)) <$> ((fun x => h (hreq x)) <$> hs).
Proof.
  intros Hm Hnd Hsent. rewrite responses_calls.
  rewrite (calls_permutation tr hs Hm Hnd Hsent).
  unfold expected_calls. rewrite fmap_imap.
  rewrite (imap_ext _ (fun _ x => (h (hreq x), reply_of (h (hreq x))))) by done.
  fold (@const (handler -> codec.Header * codec.value) nat
          (fun x => (h (hreq x), reply_of (h (hreq x))))).
  rewrite imap_const. by rewrite <- list_fmap_compose.
Qed.

Lemma decimal_inj (n m : N) : decimal n = decimal m -> n = m.
Proof.
  unfold decimal. intros Heq. apply Unsigned.to_uint_inj.
  assert (Some (N.to_uint n) = Some (N.to_uint m)) as [= ?]; [|done].
  by rewrite <- !NilEmpty.usu, Heq.
Qed.

Lemma reply_of_inj (hd hd' : codec.Header) :
  reply_of hd = reply_of hd' -> codec.Seq hd = codec.Seq hd'.
Proof.
  unfold reply_of, Sprintf_resp. intros [= Heq].
  by apply decimal_inj.
Qed.

(** ** The bytes of a run without write failures *)

Lemma wire_scan_bytes enc (st : wire_state) (tr : list event) :
  wire_scan enc st tr = Some None ->
  Forall (fun e => failed_write e = false) tr ->
  wire_bytes tr
  = match st with Some (_, todo) => todo | None => [] end
    ++ frames_of enc (responses tr).
Proof.
  revert st. induction tr as [|e tr IH]; intros st Hscan Hnf.
  - simpl in *. injection Hscan as ->. done.
  - apply Forall_cons in Hnf as [He Hnf]. simpl in Hscan.
    destruct (wire_step enc st e) as [st'|] eqn:Hst; [|done].
    specialize (IH st' Hscan Hnf).
    destruct e as [l|t hd b|t x|t [err|]| |]; simpl in *; try done.
    + by injection Hst as <-.
    + destruct st as [[t' todo]|]; [done|]. injection Hst as <-.
      rewrite IH. unfold frames_of. simpl. done.
    + destruct st as [[t' [|y todo]]|]; try done.
      repeat case_bool_decide; simpl in Hst; try done.
      injection Hst as <-. subst. by rewrite IH.
    + destruct st as [[t' [|y todo]]|]; try done.
      case_bool_decide; [|done]. injection Hst as <-. by rewrite IH.
    + by injection Hst as <-.
    + by injection Hst as <-.
Qed.

Section NoFault.
Variable G : NewCodecFunc.

Ltac same_trace :=
  eexists; split;
  [first [reflexivity | symmetry; apply app_nil_r]
  | repeat constructor].

Lemma step_no_fault t (s s' : state) :
  step G t None s = Some s' ->
  exists evs, trace s' = trace s ++ evs
              /\ Forall (fun e => failed_write e = false) evs.
Proof.
  destruct s as [cn pc c hs lk n tr]. destruct t as [|i]; simpl.
  - destruct pc as [| |hd b sp| | | |]; try done.
    + destruct (negotiate G cn); intros [= <-]; same_trace.
    + destruct c as [c0|]; [|done].
      destruct (readRequest c0) as [[[[req|] [e|]] c1] logs]; try done;
        intros [= <-]; (eexists; split; [reflexivity|]);
        apply Forall_forall; by intros e' (l & -> & _)%list_elem_of_fmap.
    + destruct c as [c0|]; [|done].
      destruct sp as [|[|x todo]|]; simpl; try (destruct lk; [done|]);
        intros [= <-]; same_trace.
    + destruct n; [|done]. intros [= <-]; same_trace.
    + intros [= <-]; same_trace.
    + intros [= <-]; same_trace.
  - destruct (hs !! i) as [[req p]|]; [|done].
    destruct p as [|hd b sp| |]; try done.
    + intros [= <-]; same_trace.
    + destruct c as [c0|]; [|done].
      destruct sp as [|[|x todo]|]; simpl; try (destruct lk; [done|]);
        intros [= <-]; same_trace.
    + destruct n; [done|]. intros [= <-]; same_trace.
Qed.

Lemma run_no_fault sch (s s' : state) :
  run G sch s = Some s' ->
  Forall (fun p => snd p = None) sch ->
  Forall (fun e => failed_write e = false) (trace s) ->
  Forall (fun e => failed_write e = false) (trace s').
Proof.
  revert s. induction sch as [|[t f] sch IH]; intros s Hrun Hsch Htr; simpl in Hrun.
  - by injection Hrun as <-.
  - apply Forall_cons in Hsch as [Hf Hsch]. simpl in Hf. subst f.
    destruct (step G t None s) as [s1|] eqn:Hstep; [|done].
    apply (IH s1 Hrun Hsch).
    destruct (step_no_fault t s s1 Hstep) as (evs & -> & Hevs).
    by apply Forall_app.
Qed.

End NoFault.

(** ** The registry of codecs *)

Lemma NewCodecFuncMap_gob (G : NewCodecFunc) :
  NewCodecFuncMap G !! codec.GobType = Some G.
Proof. unfold NewCodecFuncMap. apply lookup_insert_eq. Qed.

Lemma NewCodecFuncMap_other (G : NewCodecFunc) (t : string) :
  t <> codec.GobType -> NewCodecFuncMap G !! t = None.
Proof.
  intros Hne. unfold NewCodecFuncMap.
  rewrite lookup_insert_ne by done. apply lookup_empty.
Qed.

Example json_handshake_refused :
  run sample_gob [run_main; run_main] (start json_conn)
  = Some (mkState json_conn Returned None [] false O
            [Log (LogInvalidCodec "application/json"); ConnClose]).
Proof. reflexivity. Qed.

Section Properties.
Variable G : NewCodecFunc.

(** C2: on every connection nothing is written after the codec is closed.
    When the main goroutine stands at [cc.Close()], every handler it started
    has finished, the WaitGroup counter is zero and the mutex is free;
    [CodecClose] occurs at most once on the trace, no event of a [Write]
    follows it, and every handler has finished in any state whose trace
    holds it: the one step left then is the deferred [conn.Close()]. When
    [ServeConn] returns from a served connection the codec has been
    closed. *)
Theorem C2_no_write_after_close (cn : Conn) (s : state) :
  reachable G cn s ->
  (main s = AtClose ->
     Forall (fun x => hpc x = Exited) (handlers s) /\ wg s = O /\ sending s = false)
  /\ (forall pre post, trace s = pre ++ CodecClose :: post ->
        Forall (fun x => hpc x = Exited) (handlers s)
        /\ (CodecClose ∉ pre) /\ (CodecClose ∉ post)
        /\ Forall (fun e => is_write e = false) post)
  /\ (forall t fault, CodecClose ∈ trace s -> step G t fault s <> None ->
        t = Main /\ main s = AtDeferred)
  /\ (is_Some (cc s) -> main s = Returned -> CodecClose ∈ trace s).
Proof.
  intros Hreach. apply reachable_invariant in Hreach.
  destruct Hreach as [->|[(l & Hneg & [->| ->])|(c0 & Hneg & Hcn & Hserv)]].
  - split; [done|]. split; [|split].
    + intros pre post Htr. by destruct pre.
    + by intros t fault ?%elem_of_nil.
    + done.
  - split; [done|]. split; [|split].
    + intros pre post Htr. simpl in Htr. by destruct pre as [|? [|? ?]].
    + intros t fault Hin. simpl in Hin.
      by apply list_elem_of_singleton in Hin.
    + done.
  - split; [done|]. split; [|split].
    + intros pre post Htr. simpl in Htr. by destruct pre as [|? [|? [|? ?]]].
    + intros t fault Hin. simpl in Hin.
      apply elem_of_cons in Hin as [?|Hin]; [done|].
      by apply list_elem_of_singleton in Hin.
    + by intros [? [=]].
  - destruct Hserv as [Hmain Hcc Hwg Hlock Hjoin Hwf _ _ _ Htail].
    destruct Htail as (body & Htr & Hbody).
    destruct (not_close_not_elem body Hbody) as [Hnc _].
    assert (CodecClose ∈ trace s -> main s = AtDeferred \/ main s = Returned) as Hpc.
    { rewrite Htr. intros [?|Hin]%elem_of_app; [done|].
      destruct (main s); simpl in Hin; try (by apply elem_of_nil in Hin); auto. }
    split; [|split; [|split]]; [| | |intros _ Hret; rewrite Htr, Hret;
      apply elem_of_app; right; apply list_elem_of_here].
    + intros Hpc'. rewrite Hpc' in Hjoin. specialize (Hjoin eq_refl).
      split; [done|]. rewrite (exited_live_zero _ Hjoin) in Hwg. split; [done|].
      assert (sum_list_with holds_lock (handlers s) = O) as Hz.
      { clear -Hjoin. induction Hjoin as [|[req p] hs Hx _ IH]; [done|].
        simpl in *. subst p. by rewrite IH. }
      rewrite Hz in Hlock. by destruct (sending s).
    + intros pre post Hsplit.
      assert (CodecClose ∈ trace s) as Hin.
      { rewrite Hsplit, elem_of_app. right. apply list_elem_of_here. }
      destruct (Hpc Hin) as [Hpc'|Hpc']; rewrite Hpc' in *; simpl in *;
        (split; [by apply Hjoin|]); rewrite Htr in Hsplit.
      * destruct (split_at_close body pre post [] Hbody Hsplit) as [-> ->];
          [by intros ?%elem_of_nil|].
        split; [done|]. split; [by intros ?%elem_of_nil | constructor].
      * destruct (split_at_close body pre post [ConnClose] Hbody Hsplit) as [-> ->];
          [by intros ?%list_elem_of_singleton|].
        split; [done|]. split; [by intros ?%list_elem_of_singleton|].
        by repeat constructor.
    + intros t fault Hin Hstep.
      destruct (Hpc Hin) as [Hpc'|Hpc']; rewrite Hpc' in Hjoin;
        specialize (Hjoin eq_refl).
      * destruct t as [|i]; [done|]. destruct Hstep.
        destruct s as [cn' pc c hs lk n tr]. simpl in *.
        destruct (hs !! i) as [[req p]|] eqn:Hi; [|done].
        rewrite Forall_lookup in Hjoin. specialize (Hjoin i _ Hi).
        simpl in Hjoin. by subst p.
      * destruct Hstep. destruct s as [cn' pc c hs lk n tr]. simpl in *.
        subst pc. destruct t as [|i]; [done|]. simpl.
        destruct (hs !! i) as [[req p]|] eqn:Hi; [|done].
        rewrite Forall_lookup in Hjoin. specialize (Hjoin i _ Hi).
        simpl in Hjoin. by subst p.
Qed.

(** C6: the responses of a connection never interleave on the wire. At most
    one handler is between [Lock] and [Unlock], the mutex is held as long as
    one is, which covers the whole of its [cc.Write]; the main goroutine is
    never inside [sendResponse]; and the wire automaton accepts the trace:
    calls of [Write] do not overlap, the bytes between a call and its return
    are the bytes of that call's frame in order, and a call that returns
    without error has put its whole frame on the wire. *)
Theorem C6_responses_never_interleave (cn : Conn) (s : state) :
  reachable G cn s ->
  (sum_list_with holds_lock (handlers s) = if sending s then 1 else 0)%nat
  /\ match main s with InSend _ _ _ => False | _ => True end
  /\ (forall i x, handlers s !! i = Some x -> holds_lock x = 1%nat ->
        sending s = true
        /\ forall j y, handlers s !! j = Some y -> holds_lock y = 1%nat -> j = i)
  /\ frames_intact (encoder s) (trace s) = true.
Proof.
  intros Hreach. apply reachable_invariant in Hreach.
  destruct Hreach as [->|[(l & Hneg & [->| ->])|(c0 & Hneg & Hcn & Hserv)]];
    try (by repeat split).
  destruct Hserv as [Hmain Hcc Hwg Hlock _ _ Hwire _ _ _].
  split; [done|]. split; [by destruct (main s)|]. split.
  - intros i x Hi Hx.
    pose proof (sum_list_with_lookup holds_lock _ i x Hi) as Hle.
    assert (sending s = true) as Hlk by (destruct (sending s); [done|lia]).
    split; [done|]. intros j y Hj Hy. rewrite Hlk in Hlock.
    apply (holds_unique (handlers s) j i y x); [lia|done..].
  - destruct Hcc as (c1 & Hc & Henc & _). destruct Hwire as (st & Hscan & _).
    unfold frames_intact, encoder. by rewrite Hc, Henc, Hscan.
Qed.

(** C10: [ServeConn] closes the connection before it returns, on every
    path. From every state of a run it can be run to its return; when it
    has returned, [conn.Close()] is the last event of the trace and occurs
    once; the connection is not closed before; and after the return no
    goroutine of the connection moves any more. The paths differ only in
    the outcome of the handshake, which is arbitrary here. *)
Theorem C10_conn_closed_on_every_return (cn : Conn) (s : state) :
  reachable G cn s ->
  (exists sch s', run G sch s = Some s' /\ main s' = Returned)
  /\ (main s = Returned -> exists tr, trace s = tr ++ [ConnClose] /\ (ConnClose ∉ tr))
  /\ (ConnClose ∈ trace s -> main s = Returned)
  /\ (main s = Returned -> forall t fault, step G t fault s = None).
Proof.
  intros Hreach. apply reachable_invariant in Hreach. split.
  { destruct (run_to_return G cn s Hreach) as (sch & s' & ? & ? & _). eauto. }
  destruct Hreach as [->|[(l & Hneg & [->| ->])|(c0 & Hneg & Hcn & Hserv)]].
  - split; [done|]. split; [by intros ?%elem_of_nil|done].
  - split; [done|]. split; [by intros ?%list_elem_of_singleton|done].
  - split; [|split; [done|]].
    + intros _. exists [Log l]. split; [done|]. by intros ?%list_elem_of_singleton.
    + intros _ [|i] fault; done.
  - destruct Hserv as [Hmain _ _ _ Hjoin _ _ _ _ Htail].
    destruct Htail as (body & Htr & Hbody).
    destruct (not_close_not_elem body Hbody) as [Hnc Hnn].
    split; [|split].
    + intros Hpc. rewrite Hpc in Htr. simpl in Htr.
      exists (body ++ [CodecClose]). rewrite <- app_assoc. split; [done|].
      intros [?|?%list_elem_of_singleton]%elem_of_app; done.
    + rewrite Htr. intros [?|Hin]%elem_of_app; [done|].
      destruct (main s); simpl in Hin; try (by apply elem_of_nil in Hin); try done.
      by apply list_elem_of_singleton in Hin.
    + intros Hpc t fault. rewrite Hpc in Hjoin. specialize (Hjoin eq_refl).
      destruct s as [cn' pc c hs lk n tr]. simpl in *. subst pc.
      destruct t as [|i]; [done|]. simpl.
      destruct (hs !! i) as [[req p]|] eqn:Hi; [|done].
      rewrite Forall_lookup in Hjoin. specialize (Hjoin i _ Hi).
      simpl in Hjoin. by subst p.
Qed.

Lemma negotiate_refused (cn : Conn) (opt : Option.t) :
  hello cn = inl opt ->
  Option.MagicNumber opt <> MagicNumber
  \/ NewCodecFuncMap G !! Option.CodecType opt = None ->
  exists l, negotiate G cn = inr l
            /\ (l = LogInvalidMagic (Option.MagicNumber opt)
                \/ l = LogInvalidCodec (Option.CodecType opt)).
Proof.
  intros Hhello Hbad. unfold negotiate. rewrite Hhello.
  case_bool_decide as Hm; [eauto|].
  destruct Hbad as [?|Hnone]; [done|]. rewrite Hnone. eauto.
Qed.

(** C4: when the handshake record has a magic number other than 0x3bef5c,
    or a codec type that is not a key of [NewCodecFuncMap], [ServeConn] logs
    one line, closes the connection and returns: its run has exactly three
    states, none has a codec, a handler or an event of a [Write] on its
    trace. *)
Theorem C4_failed_handshake_writes_nothing (cn : Conn) (opt : Option.t) :
  hello cn = inl opt ->
  Option.MagicNumber opt <> MagicNumber
  \/ NewCodecFuncMap G !! Option.CodecType opt = None ->
  exists l,
    (l = LogInvalidMagic (Option.MagicNumber opt)
     \/ l = LogInvalidCodec (Option.CodecType opt))
    /\ run G [(Main, None); (Main, None)] (start cn)
       = Some (mkState cn Returned None [] false O [Log l; ConnClose])
    /\ forall s, reachable G cn s ->
         (s = start cn
          \/ s = mkState cn AtDeferred None [] false O [Log l]
          \/ s = mkState cn Returned None [] false O [Log l; ConnClose])
         /\ cc s = None /\ handlers s = []
         /\ Forall (fun e => is_write e = false) (trace s).
Proof.
  intros Hhello Hbad.
  destruct (negotiate_refused cn opt Hhello Hbad) as (l & Hneg & Hl).
  exists l. split; [done|]. split.
  - simpl. by rewrite Hneg.
  - intros s Hreach. apply reachable_invariant in Hreach.
    destruct Hreach as [->|[(l' & Hneg' & [->| ->])|(c0 & Hneg' & _)]];
      [|assert (l' = l) as -> by congruence..|congruence].
    + split; [by left|]. by repeat split.
    + split; [by right; left|]. repeat split; by repeat constructor.
    + split; [by right; right|]. repeat split; by repeat constructor.
Qed.

Lemma past_loop_step (c0 : codec.Codec) t f (s s' : state) :
  serving c0 s -> past_loop (main s) = true -> step G t f s = Some s' ->
  past_loop (main s') = true /\ cc s' = cc s
  /\ length (handlers s') = length (handlers s).
Proof.
  intros Hserv Hpl Hstep. destruct t as [|i]; simpl in Hstep.
  - apply ServeConn_step_move in Hstep; [|by apply (sv_main c0)].
    by destruct Hstep.
  - apply handleRequest_step_move in Hstep as (x & y & lk' & n' & evs & Hi & Hmove & ->).
    simpl. by rewrite length_insert.
Qed.

Lemma past_loop_run (c0 : codec.Codec) sch (s s' : state) :
  serving c0 s -> past_loop (main s) = true -> run G sch s = Some s' ->
  past_loop (main s') = true /\ cc s' = cc s
  /\ length (handlers s') = length (handlers s).
Proof.
  revert s. induction sch as [|[t f] sch IH]; intros s Hserv Hpl Hrun; simpl in Hrun.
  - by injection Hrun as <-.
  - destruct (step G t f s) as [s1|] eqn:Hstep; [|done].
    destruct (past_loop_step c0 t f s s1 Hserv Hpl Hstep) as (Hpl1 & <- & <-).
    destruct (serving_step G c0 t f s s1 Hserv Hstep) as [Hserv1 _].
    by apply IH.
Qed.


Lemma write_completes cn pc (c0 : codec.Codec) hs lk n tr i req hd b todo :
  hs !! i = Some (mkHandler req (Sending hd b (InWrite todo))) ->
  run G (replicate (S (length todo)) (Handler i, None))
    (mkState cn pc (Some c0) hs lk n tr)
  = Some (mkState cn pc (Some c0) (<[i := mkHandler req (Sending hd b AtUnlock)]> hs) lk n
            (tr ++ map (WriteByte (Handler i)) todo ++ [WriteRet (Handler i) None])).
Proof.
  revert hs tr. induction todo as [|x todo IH]; intros hs tr Hi.
  - simpl. by rewrite Hi.
  - assert (step G (Handler i) None (mkState cn pc (Some c0) hs lk n tr)
            = Some (mkState cn pc (Some c0)
                      (<[i := mkHandler req (Sending hd b (InWrite todo))]> hs) lk n
                      (tr ++ [WriteByte (Handler i) x]))) as Hstep
      by (simpl; by rewrite Hi).
    change (length (x :: todo)) with (S (length todo)).
    rewrite (replicate_S (S (length todo))).
    change (run G (?p :: ?sch) ?s0)
      with (match step G (fst p) (snd p) s0 with
            | Some s1 => run G sch s1
            | None => None
            end).
    cbn [fst snd]. rewrite Hstep.
    rewrite (IH (<[i := mkHandler req (Sending hd b (InWrite todo))]> hs)
               (tr ++ [WriteByte (Handler i) x])).
    + by rewrite list_insert_insert_eq, <- app_assoc.
    + apply list_lookup_insert_eq. by eapply lookup_lt_Some.
Qed.

Lemma ServeConn_step_enabled cn pc c hs hs' lk n tr tr' fault :
  is_Some (ServeConn_step G fault (mkState cn pc c hs lk n tr)) <->
  is_Some (ServeConn_step G fault (mkState cn pc c hs' lk n tr')).
Proof.
  simpl. destruct pc; try done.
  - by destruct (negotiate G cn).
  - destruct c as [c0|]; [|done].
    by destruct (readRequest c0) as [[[[req|] [e|]] c1] logs].
  - destruct c as [c0|]; [|done].
    by destruct (sendResponse_step _ _ _ _ _ _ _) as [[[[p'|] lk'] evs]|].
  - by destruct n.
Qed.

(** C8: a write that fails is logged and harms nothing but its own
    response. When the environment makes the [Write] of handler [i] return
    an error, the handler logs the write error and goes on to the [Unlock];
    apart from the trace, the state is the one a successful return of that
    [Write] leads to. The main goroutine stands where it stood, with the
    same codec, and can take a step exactly when it could before; and
    [ServeConn] can still be run to its return. *)
Theorem C8_write_failure_not_fatal (cn : Conn) (s : state) i req hd b todo (err : error) :
  reachable G cn s ->
  handlers s !! i = Some (mkHandler req (Sending hd b (InWrite todo))) ->
  exists s_fail s_ok,
    step G (Handler i) (Some err) s = Some s_fail
    /\ trace s_fail
       = trace s ++ [WriteRet (Handler i) (Some err); Log (LogWriteError err)]
    /\ run G (replicate (S (length todo)) (Handler i, None)) s = Some s_ok
    /\ (main s_fail, cc s_fail, handlers s_fail, sending s_fail, wg s_fail)
       = (main s_ok, cc s_ok, handlers s_ok, sending s_ok, wg s_ok)
    /\ main s_fail = main s /\ cc s_fail = cc s
    /\ handlers s_fail = <[i := mkHandler req (Sending hd b AtUnlock)]> (handlers s)
    /\ (forall fault, is_Some (step G Main fault s_fail) <-> is_Some (step G Main fault s))
    /\ (exists sch s_end, run G sch s_fail = Some s_end /\ main s_end = Returned).
Proof.
  intros Hreach Hi.
  pose proof (reachable_invariant G cn s Hreach) as Hinv.
  destruct Hinv as [->|[(l & _ & [->| ->])|(c0 & _ & _ & Hserv)]]; [done..|].
  destruct (sv_cc c0 s Hserv) as (c1 & Hc & _).
  destruct s as [cn' pc c hs lk n tr]. simpl in *. subst c.
  eexists _, _. split; [by rewrite Hi|]. simpl.
  split; [done|]. split; [by apply write_completes|]. simpl.
  split; [done|]. split; [done|]. split; [done|]. split; [done|]. split.
  - intros fault. exact (ServeConn_step_enabled cn' pc (Some c1) _ hs lk n _ tr fault).
  - set (s_fail := mkState _ _ _ _ _ _ _).
    assert (step G (Handler i) (Some err) (mkState cn' pc (Some c1) hs lk n tr)
            = Some s_fail) as Hstep by (simpl; by rewrite Hi).
    pose proof (reachable_invariant G cn s_fail
                  (reachable_step G cn _ _ _ _ Hreach Hstep)) as Hinv'.
    destruct (run_to_return G cn s_fail Hinv') as (sch & s_end & ? & ? & _). eauto.
Qed.

(** Every response on the trace of a run answers a request of the
    connection: its header is the header of that request as decoded, and its
    body the reply made from the sequence number. *)
Lemma write_call_origin (cn : Conn) (s : state) t hd b :
  reachable G cn s -> WriteCall t hd b ∈ trace s ->
  b = reply_of hd
  /\ exists c0 f, negotiate G cn = inl c0 /\ f ∈ codec.pending c0 /\ hd = codec.fheader f.
Proof.
  intros Hreach Hin. apply reachable_invariant in Hreach.
  destruct Hreach as [->|[(l & Hneg & [->| ->])|(c0 & Hneg & Hcn & Hserv)]].
  - by apply elem_of_nil in Hin.
  - by apply list_elem_of_singleton in Hin.
  - simpl in Hin. apply elem_of_cons in Hin as [?|Hin]; [done|].
    by apply list_elem_of_singleton in Hin.
  - apply (sv_calls c0 s Hserv) in Hin as (i & x & -> & Hi & _ & -> & ->).
    split; [done|]. exists c0.
    destruct (sv_cc c0 s Hserv) as (c1 & _ & _ & _ & Hfr & _).
    assert (h (hreq x) ∈ codec.fheader <$> codec.pending c0) as Hx.
    { rewrite <- Hfr. apply elem_of_app. left.
      apply list_elem_of_fmap. exists x. split; [done|].
      by eapply list_elem_of_lookup_2. }
    apply list_elem_of_fmap in Hx as (f & Hf & Hin). by exists f.
Qed.

(** When [ServeConn] has returned from a served connection, the responses
    are, up to their order, one per frame read. *)
Lemma returned_responses (cn : Conn) (c0 : codec.Codec) (s : state) :
  negotiate G cn = inl c0 -> reachable G cn s -> main s = Returned ->
  responses (trace s) ≡ₚ response_of <$> codec.pending c0
  /\ exists body, trace s = body ++ [CodecClose; ConnClose]
                  /\ Forall (fun e => is_close e = false) body.
Proof.
  intros Hneg Hreach Hret. apply reachable_invariant in Hreach.
  destruct Hreach as [->|[(l & Hneg' & _)|(c0' & Hneg' & Hcn & Hserv)]];
    [done|congruence|].
  assert (c0' = c0) as -> by congruence.
  destruct Hserv as [Hmain Hcc Hwg Hlock Hjoin Hwf _ Hcalls Honce Htail].
  rewrite Hret in *. specialize (Hjoin eq_refl).
  destruct Hcc as (c1 & _ & _ & _ & Hfr & Hp). rewrite Hp, app_nil_r in Hfr by done.
  split; [|done].
  rewrite (responses_permutation (trace s) (handlers s) Hcalls Honce).
  - by rewrite Hfr, <- list_fmap_compose.
  - eapply Forall_impl; [exact Hjoin|]. by intros x ->.
Qed.

(** X11: every frame the codec of a connection yields is answered exactly
    once. [ServeConn] can be run to its return from every state of a run,
    and no run is longer than [cost]; when it has returned, the calls of
    [cc.Write] are, up to their order, one per frame read, each with the
    header of its request (so with its sequence number and service method)
    and the reply made from the sequence number; there are as many as
    frames; and all come before the two closes that end the trace. In a run
    where no write fails, the bytes on the wire are the frames of these
    responses, whole and one after the other. *)
Theorem X11_one_response_per_frame_read (cn : Conn) (c0 : codec.Codec) :
  negotiate G cn = inl c0 ->
  (forall s, reachable G cn s ->
     exists sch s', run G sch s = Some s' /\ main s' = Returned)
  /\ (forall sch s, run G sch (start cn) = Some s ->
        (length sch <= cost G (start cn))%nat)
  /\ (forall s, reachable G cn s -> main s = Returned ->
        responses (trace s) ≡ₚ response_of <$> codec.pending c0
        /\ length (responses (trace s)) = length (codec.pending c0)
        /\ exists body, trace s = body ++ [CodecClose; ConnClose]
                        /\ Forall (fun e => is_close e = false) body)
  /\ (forall sch s, run G sch (start cn) = Some s -> main s = Returned ->
        Forall (fun p => snd p = None) sch ->
        wire_bytes (trace s) = frames_of (codec.encode c0) (responses (trace s))).
Proof.
  intros Hneg. split; [|split; [|split]].
  - intros s Hreach. apply reachable_invariant in Hreach.
    destruct (run_to_return G cn s Hreach) as (sch & s' & ? & ? & _). eauto.
  - intros sch s Hrun.
    pose proof (run_bound G cn sch (start cn) s (or_introl eq_refl) Hrun). lia.
  - intros s Hreach Hret.
    destruct (returned_responses cn c0 s Hneg Hreach Hret) as (Hperm & Htail).
    split; [done|]. split; [by rewrite Hperm, length_fmap|]. done.
  - intros sch s Hrun Hret Hsch.
    pose proof (run_no_fault G sch (start cn) s Hrun Hsch (Forall_nil_2 _)) as Hnf.
    pose proof (reachable_invariant G cn s (ex_intro _ sch Hrun))
      as [->|[(l & Hneg' & _)|(c0' & Hneg' & Hcn & Hserv)]]; [done|congruence|].
    assert (c0' = c0) as -> by congruence.
    destruct Hserv as [_ _ _ Hlock Hjoin _ Hwire _ _ _].
    rewrite Hret in Hjoin. specialize (Hjoin eq_refl).
    destruct Hwire as (st & Hscan & Hst).
    assert (st = None) as ->.
    { apply (writer_is_unlocked (handlers s)); [|done].
      clear -Hjoin. induction Hjoin as [|[req p] hs Hx _ IH]; [done|].
      simpl in *. subst p. by rewrite IH. }
    by rewrite (wire_scan_bytes _ None (trace s) Hscan Hnf).
Qed.


(** C9: [readRequest] returns an error only together with a nil
    request, a body that does not decode is logged and gives a request and
    no error, and so the main goroutine is never inside the inline
    [sendResponse] of the serve loop. No response has the body
    [invalidRequest], and the header of every response is the header of a
    request as decoded: the server never writes its error field, which is
    empty exactly when the request came with an empty one. *)
Theorem C9_inline_error_branch_dead (cn : Conn) (s : state) :
  reachable G cn s ->
  (forall c req err c' logs, readRequest c = (req, Some err, c', logs) -> req = None)
  /\ (forall c hd e, codec.ReadHeader c = inl hd -> fst (codec.ReadBody c) = inr e ->
        readRequest c
        = (Some (mkRequest hd "" None), None, snd (codec.ReadBody c), [LogReadArgvErr e]))
  /\ match main s with InSend _ _ _ => False | _ => True end
  /\ (forall t hd b, WriteCall t hd b ∈ trace s ->
        b <> invalidRequest
        /\ exists c0 f, negotiate G cn = inl c0 /\ f ∈ codec.pending c0
                        /\ hd = codec.fheader f
                        /\ codec.Error hd = codec.Error (codec.fheader f)).
Proof.
  intros Hreach. split; [|split; [|split]].
  - intros c req err c' logs Hrr.
    by destruct (readRequest_shape c req (Some err) c' logs Hrr) as [[? _]|[_ ?]].
  - intros c hd e Hh Hb. unfold readRequest, readRequestHeader. rewrite Hh.
    destruct (codec.ReadBody c) as [[a|e'] c']; simpl in *; [done|]. congruence.
  - pose proof (reachable_invariant G cn s Hreach)
      as [->|[(l & _ & [->| ->])|(c0 & _ & _ & Hserv)]]; try done.
    pose proof (sv_main c0 s Hserv). by destruct (main s).
  - intros t hd b Hin.
    destruct (write_call_origin cn s t hd b Hreach Hin) as (-> & c0 & f & ? & ? & ->).
    split; [done|]. by exists c0, f.
Qed.

End Properties.

(** ** The properties on the sample connections *)

Ltac find_in_trace :=
  vm_compute; repeat first [apply list_elem_of_here | apply list_elem_of_further].

(** C1: the request with sequence number 7 of [bad_body_conn] has a body
    that does not decode. The run of [ServeConn] logs the argv error, then
    answers it as a success: the one response has an empty error field and
    the body "geerpc resp 7", not [invalidRequest]. *)
Theorem C1_bad_body_answered_as_success :
  exists s,
    run sample_gob bad_body_schedule (start bad_body_conn) = Some s
    /\ main s = Returned
    /\ trace s
       = [Log (LogReadArgvErr (ErrOther "bad body"));
          Log (LogRequest (codec.mkHeader "Foo.Bar" 7 "") "");
          WriteCall (Handler 0) (codec.mkHeader "Foo.Bar" 7 "")
            (codec.VString "geerpc resp 7");
          WriteByte (Handler 0) Byte.x01; WriteByte (Handler 0) Byte.x02;
          WriteRet (Handler 0) None;
          CodecClose; ConnClose]
    /\ responses (trace s)
       = [(codec.mkHeader "Foo.Bar" 7 "", codec.VString "geerpc resp 7")].
Proof. eexists. split; [reflexivity|]. by repeat split. Qed.

(** The same on every run of [ServeConn] on [bad_body_conn] that reaches
    its return, whatever the schedule. *)
Lemma bad_body_every_run (sch : schedule) (s : state) :
  run sample_gob sch (start bad_body_conn) = Some s ->
  main s = Returned ->
  responses (trace s)
  = [(codec.mkHeader "Foo.Bar" 7 "", codec.VString "geerpc resp 7")].
Proof.
  intros Hrun Hret.
  destruct (returned_responses sample_gob bad_body_conn (sample_gob bad_body_conn) s
              eq_refl (ex_intro _ sch Hrun) Hret) as (Hperm & _).
  by apply Permutation_singleton_r in Hperm.
Qed.

(** Whatever the peer sent, the responses of a returned [ServeConn] answer
    the requests left on the connection after the handshake: those in the
    buffer of the JSON decoder get none. *)
Lemma responses_after_read_ahead (G : NewCodecFunc) (p : Peer) (c0 : codec.Codec)
    (s : state) :
  negotiate G (after_handshake p) = inl c0 ->
  codec.pending c0 = traffic (after_handshake p) ->
  reachable G (after_handshake p) s -> main s = Returned ->
  responses (trace s) ≡ₚ response_of <$> drop (buffered p) (sent_requests p).
Proof.
  intros Hneg Hpend Hreach Hret.
  destruct (returned_responses G (after_handshake p) c0 s Hneg Hreach Hret) as [Hperm _].
  by rewrite Hperm, Hpend.
Qed.

(** On the connection of [eager_peer] no run of [ServeConn] that reaches its
    return has sent a response. *)
Lemma eager_peer_every_run (sch : schedule) (s : state) :
  run sample_gob sch (start (after_handshake eager_peer)) = Some s ->
  main s = Returned ->
  responses (trace s) = [].
Proof.
  intros Hrun Hret.
  pose proof (responses_after_read_ahead sample_gob eager_peer
                (sample_gob (after_handshake eager_peer)) s eq_refl eq_refl
                (ex_intro _ sch Hrun) Hret) as Hperm.
  by apply Permutation_nil_r in Hperm.
Qed.

(** C3: requests that reach the server together with the option record are
    lost. [eager_peer] sends [DefaultOption] and two complete requests in
    one piece and closes. The JSON decoder of the handshake reads all of it
    and is dropped with its buffer; the codec, put on the connection itself,
    finds the stream at its end. [ServeConn] accepts the handshake, starts
    no handler, sends no response and closes: two requests sent, none
    answered. *)
Theorem C3_requests_sent_with_handshake_lost :
  length (sent_requests eager_peer) = 2%nat
  /\ negotiate sample_gob (after_handshake eager_peer)
     = inl (sample_gob (after_handshake eager_peer))
  /\ exists s,
       run sample_gob eager_schedule (start (after_handshake eager_peer)) = Some s
       /\ main s = Returned
       /\ handlers s = []
       /\ responses (trace s) = []
       /\ trace s = [CodecClose; ConnClose].
Proof.
  split; [reflexivity|]. split; [reflexivity|].
  eexists. split; [reflexivity|]. by repeat split.
Qed.

Lemma C2_witness :
  reachable sample_gob sample_conn sample_final
  /\ Forall (fun x => hpc x = Exited) (handlers sample_final).
Proof.
  assert (reachable sample_gob sample_conn sample_final) as Hr
    by (exists sample_schedule; reflexivity).
  split; [exact Hr|].
  destruct (C2_no_write_after_close sample_gob sample_conn sample_final Hr)
    as (_ & Hsplit & _).
  apply (Hsplit (take 11 (trace sample_final)) [ConnClose]). reflexivity.
Defined.

Lemma X11_witness :
  negotiate sample_gob sample_conn = inl (sample_gob sample_conn)
  /\ length (responses (trace sample_final)) = 2%nat.
Proof.
  assert (negotiate sample_gob sample_conn = inl (sample_gob sample_conn)) as Hn
    by reflexivity.
  split; [exact Hn|].
  destruct (X11_one_response_per_frame_read sample_gob sample_conn _ Hn)
    as (_ & _ & Hend & _).
  apply (Hend sample_final); [exists sample_schedule|]; reflexivity.
Defined.

Lemma C4_witness :
  hello bad_magic_conn = inl bad_magic_option
  /\ Option.MagicNumber bad_magic_option <> MagicNumber
  /\ exists l,
       run sample_gob [(Main, None); (Main, None)] (start bad_magic_conn)
       = Some (mkState bad_magic_conn Returned None [] false O [Log l; ConnClose]).
Proof.
  assert (Option.MagicNumber bad_magic_option <> MagicNumber) as Hm by (by vm_compute).
  split; [reflexivity|]. split; [exact Hm|].
  destruct (C4_failed_handshake_writes_nothing sample_gob bad_magic_conn
              bad_magic_option eq_refl (or_introl Hm)) as (l & _ & Hrun & _).
  by exists l.
Defined.


Lemma C6_witness :
  reachable sample_gob sample_conn sample_midway
  /\ frames_intact (encoder sample_midway) (trace sample_midway) = true.
Proof.
  assert (reachable sample_gob sample_conn sample_midway) as Hr
    by (exists (take 8 sample_schedule); reflexivity).
  split; [exact Hr|].
  apply (C6_responses_never_interleave sample_gob sample_conn sample_midway Hr).
Defined.



Lemma C8_witness :
  reachable sample_gob sample_conn sample_midway
  /\ handlers sample_midway !! 1%nat
     = Some (mkHandler (mkRequest (codec.mkHeader "Foo.Bar" 8 "boom") "x"
                          (Some "geerpc resp 8"))
               (Sending (codec.mkHeader "Foo.Bar" 8 "boom")
                  (codec.VString "geerpc resp 8") (InWrite [Byte.x02])))
  /\ exists s_fail,
       step sample_gob (Handler 1) (Some (ErrOther "broken pipe")) sample_midway
       = Some s_fail
       /\ main s_fail = main sample_midway.
Proof.
  assert (reachable sample_gob sample_conn sample_midway) as Hr
    by (exists (take 8 sample_schedule); reflexivity).
  split; [exact Hr|]. split; [reflexivity|].
  destruct (C8_write_failure_not_fatal sample_gob sample_conn sample_midway 1%nat
              _ _ _ _ (ErrOther "broken pipe") Hr eq_refl)
    as (s_fail & s_ok & Hstep & _ & _ & _ & Hmain & _).
  by exists s_fail.
Defined.

Lemma C9_witness :
  reachable sample_gob sample_conn sample_final
  /\ match main sample_final with InSend _ _ _ => False | _ => True end.
Proof.
  assert (reachable sample_gob sample_conn sample_final) as Hr
    by (exists sample_schedule; reflexivity).
  split; [exact Hr|].
  apply (C9_inline_error_branch_dead sample_gob sample_conn sample_final Hr).
Defined.

(** C9, the error field: it is not true that every response header the
    server writes has an empty error field. While the second handler of
    [sample_conn] is writing, a response header with the error field "boom"
    is already on the trace. *)
Lemma C9_counterexample :
  ~ (reachable sample_gob sample_conn sample_midway ->
     match main sample_midway with InSend _ _ _ => False | _ => True end
     /\ forall t hd b, WriteCall t hd b ∈ trace sample_midway -> codec.Error hd = "").
Proof.
  intros Hclaim.
  destruct (Hclaim (ex_intro _ (take 8 sample_schedule) eq_refl)) as [_ Hempty].
  assert (codec.Error (codec.mkHeader "Foo.Bar" 8 "boom") = "") as Herr.
  { apply (Hempty (Handler 1) _ (codec.VString "geerpc resp 8")). find_in_trace. }
  discriminate Herr.
Qed.

Lemma C10_witness :
  reachable sample_gob sample_conn sample_final
  /\ (main sample_final = Returned ->
      exists tr, trace sample_final = tr ++ [ConnClose] /\ (ConnClose ∉ tr)).
Proof.
  assert (reachable sample_gob sample_conn sample_final) as Hr
    by (exists sample_schedule; reflexivity).
  split; [exact Hr|].
  apply (C10_conn_closed_on_every_return sample_gob sample_conn sample_final Hr).
Defined.

(** * Further properties of the code *)

Section Handshake.
Variable G : NewCodecFunc.

(** X2: [ServeConn] serves a connection exactly when its option record
    decodes, carries the magic number 0x3bef5c and asks for
    "application/gob"; the codec is then [NewGobCodec(conn)]. The checks run
    in that order: a record with a wrong magic number is refused for its
    magic number whatever its codec type. [DefaultOption] passes. *)
Theorem X2_handshake_accepted_iff (cn : Conn) (c : codec.Codec) :
  (negotiate G cn = inl c <->
   exists opt, hello cn = inl opt
               /\ Option.MagicNumber opt = 0x3bef5c
               /\ Option.CodecType opt = "application/gob"%string
               /\ c = G cn)
  /\ (forall opt, hello cn = inl opt -> Option.MagicNumber opt <> MagicNumber ->
        negotiate G cn = inr (LogInvalidMagic (Option.MagicNumber opt)))
  /\ (hello cn = inl DefaultOption -> negotiate G cn = inl (G cn)).
Proof.
  unfold negotiate. split; [|split].
  - destruct (hello cn) as [opt|err]; [|naive_solver].
    case_bool_decide as Hm; [naive_solver|].
    destruct (decide (Option.CodecType opt = codec.GobType)) as [Ht|Ht].
    + rewrite Ht, NewCodecFuncMap_gob. split.
      * intros [= <-]. exists opt. by repeat split.
      * by intros (opt' & [= <-] & _ & _ & ->).
    + rewrite NewCodecFuncMap_other by done. split; [done|].
      by intros (opt' & [= <-] & _ & ? & _).
  - intros opt -> Hm. by rewrite bool_decide_eq_true_2.
  - intros ->. simpl. by rewrite NewCodecFuncMap_gob.
Qed.

(** X3: when the option record does not decode, [ServeConn] logs the
    options error, closes the connection and returns. Its run has exactly
    three states; none has a codec or a handler, and nothing is written. *)
Theorem X3_options_error_closes (cn : Conn) (err : error) :
  hello cn = inr err ->
  run G [(Main, None); (Main, None)] (start cn)
  = Some (mkState cn Returned None [] false O [Log (LogOptionsError err); ConnClose])
  /\ forall s, reachable G cn s ->
       (s = start cn
        \/ s = mkState cn AtDeferred None [] false O [Log (LogOptionsError err)]
        \/ s = mkState cn Returned None [] false O [Log (LogOptionsError err); ConnClose])
       /\ responses (trace s) = [] /\ wire_bytes (trace s) = [].
Proof.
  intros Hhello.
  assert (negotiate G cn = inr (LogOptionsError err)) as Hneg
    by (unfold negotiate; by rewrite Hhello).
  split; [simpl; by rewrite Hneg|].
  intros s Hreach. apply reachable_invariant in Hreach.
  destruct Hreach as [->|[(l & Hneg' & [->| ->])|(c0 & Hneg' & _)]];
    [|assert (l = LogOptionsError err) as -> by congruence..|congruence].
  - split; [by left|done].
  - split; [by right; left|done].
  - split; [by right; right|done].
Qed.

(** X4: no goroutine of a connection ever panics. A goroutine that cannot
    take a step has finished, or waits at [wg.Wait()] for a handler that has
    not yet called [Done], or waits at [sending.Lock()] for a handler that
    holds the mutex. In particular [wg.Done()] never finds the counter at
    zero, [handleRequest] is never started on a nil request, and [Unlock] is
    only called on the locked mutex. *)
Theorem X4_no_goroutine_panics (cn : Conn) (s : state) t fault :
  reachable G cn s -> step G t fault s = None ->
  match t with
  | Main =>
      main s = Returned
      \/ (main s = AtWait
          /\ exists i x, handlers s !! i = Some x /\ hpc x <> Exited)
  | Handler i =>
      handlers s !! i = None
      \/ exists x, handlers s !! i = Some x
           /\ (hpc x = Exited
               \/ (exists hd b, hpc x = Sending hd b AtLock)
                  /\ sending s = true
                  /\ exists j y, j <> i /\ handlers s !! j = Some y
                                 /\ holds_lock y = 1%nat)
  end.
Proof.
  intros Hreach Hstep. apply reachable_invariant in Hreach.
  destruct Hreach as [->|[(l & Hneg & [->| ->])|(c0 & Hneg & Hcn & Hserv)]].
  - destruct t as [|i]; simpl in *; [by destruct (negotiate G cn)|by left].
  - destruct t as [|i]; simpl in *; [done|by left].
  - destruct t as [|i]; simpl in *; [by left|by left].
  - destruct Hserv as [Hmain Hcc Hwg Hlock _ _ _ _ _ _].
    destruct s as [cn' pc c hs lk n tr]. simpl in *.
    destruct Hcc as (c1 & -> & _).
    destruct t as [|i]; simpl in Hstep.
    + destruct pc; try done; [| |by left].
      * destruct (codec.pending c1) as [|fr fs] eqn:Hp.
        -- by rewrite (readRequest_empty c1 Hp) in Hstep.
        -- by rewrite (readRequest_frame c1 fr fs Hp) in Hstep.
      * destruct n as [|n]; [done|]. right. split; [done|].
        destruct (sum_list_with_pos live hs) as (i & x & Hi & Hlive); [lia|].
        exists i, x. split; [done|]. intros Hx. unfold live in Hlive.
        rewrite Hx in Hlive. lia.
    + destruct (hs !! i) as [[req p]|] eqn:Hi; [|by left]. right.
      eexists. split; [done|]. simpl.
      destruct p as [|hd b [|todo|]| |]; simpl in Hstep; try done.
      * destruct lk; [|done]. right. split; [by eexists _, _|]. split; [done|].
        destruct (sum_list_with_pos holds_lock hs) as (j & y & Hj & Hy); [lia|].
        exists j, y. split.
        -- intros ->. rewrite Hi in Hj. injection Hj as <-.
           unfold holds_lock in Hy. simpl in Hy. lia.
        -- split; [done|].
           pose proof (sum_list_with_lookup holds_lock hs j y Hj). lia.
      * by destruct fault, todo.
      * destruct n as [|n]; [|done].
        pose proof (sum_list_with_lookup live hs i _ Hi) as Hle.
        unfold live in Hle at 1. simpl in Hle. lia.
      * by left.
Qed.

End Handshake.

(** ** Requests in the order of their arrival *)

Lemma handler_move_request enc i (x y : handler) lk n lk' n' evs :
  handler_move enc i x lk n y lk' n' evs ->
  h (hreq y) = h (hreq x) /\ argv (hreq y) = argv (hreq x).
Proof. by destruct 1. Qed.

Lemma Forall2_insert_r {A B} (P : A -> B -> Prop) (l : list A) (k : list B) i (y y' : B) :
  Forall2 P l k -> k !! i = Some y -> (forall a, P a y -> P a y') ->
  Forall2 P l (<[i := y']> k).
Proof.
  intros HF. revert i. induction HF as [|a b l k Hab HF IH]; intros [|i] Hi Himp;
    simplify_eq/=; constructor; auto.
Qed.

Lemma app_eq_event (l evs pre post : list event) (e : event) :
  l ++ evs = pre ++ e :: post ->
  (exists post', l = pre ++ e :: post')
  \/ (exists pre', pre = l ++ pre' /\ evs = pre' ++ e :: post).
Proof.
  revert pre. induction l as [|a l IH]; intros pre Heq; simpl in *.
  - right. by exists pre.
  - destruct pre as [|a' pre]; simpl in *.
    + injection Heq as <- <-. left. by exists l.
    + injection Heq as <- Heq. destruct (IH pre Heq) as [(post' & ->)|(pre' & -> & ->)].
      * left. by exists post'.
      * right. by exists pre'.
Qed.

Section Order.
Variable G : NewCodecFunc.

Lemma arrival_step (c0 : codec.Codec) t f (s s' : state) :
  serving c0 s -> arrival c0 s -> step G t f s = Some s' -> arrival c0 s'.
Proof.
  intros Hserv (c & seen & Hc & Hfr & HF) Hstep. destruct t as [|i]; simpl in Hstep.
  - apply ServeConn_step_move in Hstep; [|by apply (sv_main c0)].
    destruct Hstep as [cn c1 hs lk n tr Hp|cn c1 fr fs hs lk n tr Hp|cn c1 hs lk tr
                      |cn c1 hs lk n tr|cn c1 hs lk n tr]; simpl in *;
      try (by exists c, seen).
    injection Hc as <-. eexists _, (seen ++ [fr]). split; [done|]. simpl.
    split; [by rewrite Hfr, Hp, <- app_assoc|].
    apply Forall2_app; [done|]. by repeat constructor.
  - apply handleRequest_step_move in Hstep
      as (x & y & lk' & n' & evs & Hi & Hmove & ->). simpl.
    exists c, seen. split; [done|]. split; [done|].
    destruct (handler_move_request _ _ _ _ _ _ _ _ _ Hmove) as [Hh Ha].
    apply (Forall2_insert_r _ _ _ i x y HF Hi).
    intros a [? ?]. split; congruence.
Qed.

Lemma reachable_arrival (cn : Conn) (c0 : codec.Codec) (s : state) :
  negotiate G cn = inl c0 -> reachable G cn s -> s = start cn \/ arrival c0 s.
Proof.
  intros Hneg. revert s.
  apply (reachable_ind G cn (fun s => s = start cn \/ arrival c0 s)); [by left|].
  intros t f s0 s1 Hreach HP Hstep.
  pose proof (reachable_invariant G cn s0 Hreach)
    as [->|[(l & Hneg' & _)|(c0' & Hneg' & _ & Hserv)]]; [|congruence|].
  - destruct t as [|i]; simpl in Hstep; [|done]. rewrite Hneg in Hstep.
    injection Hstep as <-. right. exists c0, []. by repeat split.
  - assert (c0' = c0) as -> by congruence. right.
    destruct HP as [->|HP]; [by destruct (sv_main c0 _ Hserv)|].
    by apply (arrival_step c0 t f s0 s1).
Qed.

(** X5: [serveCodec] starts its handlers in the order the requests arrive.
    The i-th handler holds the request made of the i-th frame of the
    connection: the header as decoded, and as argument the decoded body, or
    the empty string when the body does not decode. There are never more
    handlers than frames. *)
Theorem X5_handlers_in_arrival_order (cn : Conn) (c0 : codec.Codec) (s : state) :
  negotiate G cn = inl c0 -> reachable G cn s ->
  (length (handlers s) <= length (codec.pending c0))%nat
  /\ forall i x, handlers s !! i = Some x ->
       exists fr, codec.pending c0 !! i = Some fr /\ served_as fr x.
Proof.
  intros Hneg Hreach.
  destruct (reachable_arrival cn c0 s Hneg Hreach)
    as [->|(c & seen & Hc & Hfr & HF)]; [split; [simpl; lia|done]|].
  pose proof (Forall2_length _ _ _ HF) as Hlen. split.
  - rewrite Hfr, length_app. lia.
  - intros i x Hi.
    destruct (Forall2_lookup_r _ _ _ i x HF Hi) as (fr & Hfr' & Hs).
    exists fr. split; [|done]. rewrite Hfr. by apply lookup_app_l_Some.
Qed.

Lemma logged_step (c0 : codec.Codec) t f (s s' : state) :
  serving c0 s -> logged s -> step G t f s = Some s' -> logged s'.
Proof.
  intros Hserv [Hlog Hbefore] Hstep. destruct t as [|i]; simpl in Hstep.
  - apply ServeConn_step_move in Hstep; [|by apply (sv_main c0)].
    assert (exists evs, trace s' = trace s ++ evs
                        /\ (forall t hd b, WriteCall t hd b ∉ evs)
                        /\ forall j x, handlers s' !! j = Some x -> hpc x <> Spawned ->
                             handlers s !! j = Some x) as (evs & Htr & Hevs & Hhs).
    { destruct Hstep as [cn c1 hs lk n tr Hp|cn c1 fr fs hs lk n tr Hp|cn c1 hs lk tr
                        |cn c1 hs lk n tr|cn c1 hs lk n tr]; simpl.
      - eexists. split; [done|]. split; [|done].
        intros ???. by apply not_elem_of_logs.
      - eexists. split; [done|]. split; [intros ???; by apply not_elem_of_logs|].
        intros j x Hj Hx. apply lookup_app_Some in Hj as [Hj|(_ & Hj)]; [done|].
        apply list_lookup_singleton_Some in Hj as [_ <-]. done.
      - exists []. rewrite app_nil_r. split; [done|]. split; [|done].
        by intros ??? ?%elem_of_nil.
      - eexists. split; [done|]. split; [|done].
        by intros ??? ?%list_elem_of_singleton.
      - eexists. split; [done|]. split; [|done].
        by intros ??? ?%list_elem_of_singleton. }
    split.
    + intros j x Hj Hx. rewrite Htr. apply elem_of_app. left.
      apply (Hlog j); [by apply Hhs | done].
    + intros pre post t hd b Hsplit. rewrite Htr in Hsplit.
      apply app_eq_event in Hsplit as [(post' & Hold)|(pre' & -> & Hnew)].
      * by apply (Hbefore pre post' t hd b).
      * destruct (Hevs t hd b). rewrite Hnew. apply elem_of_app. right.
        apply list_elem_of_here.
  - apply handleRequest_step_move in Hstep
      as (x & y & lk' & n' & evs & Hi & Hmove & ->). simpl.
    destruct (handler_move_request _ _ _ _ _ _ _ _ _ Hmove) as [Hh Ha].
    assert (hpc y <> Spawned ->
            Log (LogRequest (h (hreq x)) (argv (hreq x))) ∈ trace s ++ evs) as Hy.
    { intros Hny. apply elem_of_app. clear Hh Ha.
      destruct Hmove; simpl in *;
        first [ right; apply list_elem_of_here
              | left; by apply (Hlog i _ Hi) ]. }
    split.
    + intros j z Hj Hz.
      apply list_lookup_insert_Some in Hj as [(Hij & Hyz & _)|(Hne & Hj)].
      * subst j z. rewrite Hh, Ha. by apply Hy.
      * apply elem_of_app. left. by apply (Hlog j).
    + intros pre post t hd b Hsplit.
      apply app_eq_event in Hsplit as [(post' & Hold)|(pre' & -> & Hnew)].
      * by apply (Hbefore pre post' t hd b).
      * pose proof (sv_wf c0 s Hserv) as Hwf. rewrite Forall_lookup in Hwf.
        specialize (Hwf i x Hi).
        destruct Hmove; simpl in *;
          try (by destruct pre' as [|? [|? [|? ?]]]).
        destruct pre' as [|? [|? ?]]; try done. simplify_eq/=.
        destruct Hwf as [Hhd _]. exists (argv req). rewrite app_nil_r, Hhd.
        by apply (Hlog i _ Hi).
Qed.

Lemma reachable_logged (cn : Conn) (s : state) : reachable G cn s -> logged s.
Proof.
  revert s. apply (reachable_ind G cn logged).
  - split; [done|]. intros pre post t hd b Hsplit. by destruct pre.
  - intros t f s0 s1 Hreach HP Hstep.
    pose proof (reachable_invariant G cn s0 Hreach)
      as [->|[(l & _ & [->| ->])|(c0 & _ & _ & Hserv)]].
    + destruct t as [|i]; simpl in Hstep; [|done].
      destruct (negotiate G cn); injection Hstep as <-;
        (split; [done|]); intros pre post t hd b Hsplit; simpl in Hsplit;
        by destruct pre as [|? [|? ?]].
    + destruct t as [|i]; simpl in Hstep; [|done]. injection Hstep as <-.
      split; [done|]. intros pre post t hd b Hsplit. simpl in Hsplit.
      by destruct pre as [|? [|? [|? ?]]].
    + by destruct t.
    + by apply (logged_step c0 t f s0 s1).
Qed.

(** X6: [handleRequest] logs a request before it answers it. On the trace
    of every run, every call of [cc.Write] comes after a log line of a
    request with the header of the response, and every handler that has
    taken its first action has its own request, header and argument, on the
    log. *)
Theorem X6_request_logged_before_response (cn : Conn) (s : state) :
  reachable G cn s ->
  (forall pre post t hd b, trace s = pre ++ WriteCall t hd b :: post ->
     exists a, Log (LogRequest hd a) ∈ pre)
  /\ (forall i x, handlers s !! i = Some x -> hpc x <> Spawned ->
        Log (LogRequest (h (hreq x)) (argv (hreq x))) ∈ trace s).
Proof. intros Hreach. by destruct (reachable_logged cn s Hreach). Qed.

(** X7: at no moment of a run has a request been answered twice, or a
    response been sent for a request not yet read. The goroutines that have
    called [cc.Write] are handlers of the connection, each occurs once, and
    the responses are never more than the handlers started. *)
Theorem X7_at_most_one_response_per_request (cn : Conn) (s : state) :
  reachable G cn s ->
  NoDup (callers (trace s))
  /\ (forall t, t ∈ callers (trace s) ->
        exists i, t = Handler i /\ (i < length (handlers s))%nat)
  /\ (length (responses (trace s)) <= length (handlers s))%nat.
Proof.
  intros Hreach.
  assert (NoDup (callers (trace s))
          /\ forall t, t ∈ callers (trace s) ->
               exists i, t = Handler i /\ (i < length (handlers s))%nat) as [Hnd Hin].
  { apply reachable_invariant in Hreach.
    destruct Hreach as [->|[(l & _ & [->| ->])|(c0 & _ & _ & Hserv)]];
      try (split; [constructor | by intros t ?%elem_of_nil]).
    split; [by apply (sv_once c0)|].
    intros t (hd & b & Hc)%elem_of_callers.
    apply (sv_calls c0 s Hserv) in Hc as (i & x & -> & Hi & _).
    exists i. split; [done|]. by eapply lookup_lt_Some. }
  split; [done|]. split; [done|].
  assert (length (callers (trace s))
          <= length (Handler <$> seq 0 (length (handlers s))))%nat as Hle.
  { apply submseteq_length, NoDup_submseteq; [done|]. intros t Ht.
    destruct (Hin t Ht) as (i & -> & Hi).
    apply list_elem_of_fmap. exists i. split; [done|]. apply elem_of_seq. lia. }
  rewrite length_fmap, length_seq, callers_calls, length_fmap in Hle.
  by rewrite responses_calls, length_fmap.
Qed.

End Order.

(** ** Accepting connections *)

Section Acceptor.
Variable G : NewCodecFunc.

Lemma step_conn t f (s s' : state) : step G t f s = Some s' -> conn s' = conn s.
Proof.
  destruct s as [cn pc c hs lk n tr]. destruct t as [|i]; simpl.
  - destruct pc as [| |hd b sp| | | |]; try done.
    + by destruct (negotiate G cn); intros [= <-].
    + destruct c as [c0|]; [|done].
      by destruct (readRequest c0) as [[[[req|] [e|]] c1] logs]; intros [= <-].
    + destruct c as [c0|]; [|done].
      by destruct (sendResponse_step _ _ _ _ _ _ _) as [[[[p'|] lk'] evs]|];
        intros [= <-].
    + by destruct n; intros [= <-].
    + by intros [= <-].
    + by intros [= <-].
  - destruct (hs !! i) as [[req p]|]; [|done].
    destruct p as [|hd b sp| |]; try done.
    + by intros [= <-].
    + destruct c as [c0|]; [|done].
      by destruct (sendResponse_step _ _ _ _ _ _ _) as [[[[p'|] lk'] evs]|];
        intros [= <-].
    + by destruct n; intros [= <-].
Qed.

Lemma server_run_snoc ms m (sv sv' : server_state) :
  server_run G (ms ++ [m]) sv = Some sv' <->
  exists sv1, server_run G ms sv = Some sv1 /\ server_step G m sv1 = Some sv'.
Proof.
  revert sv. induction ms as [|m0 ms IH]; intros sv; simpl.
  - destruct (server_step G m sv) as [sv1|] eqn:Hs; split.
    + intros [= <-]. eauto.
    + intros (? & [= <-] & ?). congruence.
    + done.
    + intros (? & [= <-] & ?). congruence.
  - destruct (server_step G m0 sv) as [sv0|]; [apply IH|].
    split; [done | by intros (? & ? & _)].
Qed.

Lemma server_reachable_ind (lis : Listener) (P : server_state -> Prop) :
  P (listen lis) ->
  (forall m sv sv', server_reachable G lis sv -> P sv ->
                    server_step G m sv = Some sv' -> P sv') ->
  forall sv, server_reachable G lis sv -> P sv.
Proof.
  intros H0 Hstep sv [ms Hrun]. revert sv Hrun.
  induction ms as [|m ms IH] using rev_ind; intros sv Hrun.
  - simpl in Hrun. by injection Hrun as <-.
  - apply server_run_snoc in Hrun as (sv1 & Hrun1 & Hst).
    apply (Hstep m sv1); [by exists ms | by apply IH | done].
Qed.

Lemma server_invariant (lis : Listener) (sv : server_state) :
  server_reachable G lis sv -> accepted_so_far lis sv.
Proof.
  revert sv. apply server_reachable_ind; [done|].
  intros m [bl acc cs lg] sv' _ Hacc Hstep.
  unfold accepted_so_far in *. destruct m as [|k t f]; simpl in *.
  - unfold Accept_step in Hstep. simpl in Hstep.
    destruct acc; [|done]. destruct Hacc as [-> ->].
    destruct bl as [|[cn|err] rest]; [done| |]; injection Hstep as <-; simpl.
    + split; [|done]. by rewrite fmap_app, <- app_assoc.
    + by exists err.
  - destruct (cs !! k) as [s|] eqn:Hk; [|done].
    destruct (step G t f s) as [s'|] eqn:Hst; [|done]. injection Hstep as <-. simpl.
    pose proof (step_conn t f s s' Hst) as Hconn.
    by rewrite (fmap_insert_same (fun s => @inl Conn error (conn s)) cs k s s' Hk)
      by (by rewrite Hconn).
Qed.


End Acceptor.

(** ** The further properties on the samples *)

Lemma X3_witness :
  hello garbled_conn = inr (ErrOther "invalid character")
  /\ run sample_gob [(Main, None); (Main, None)] (start garbled_conn)
     = Some (mkState garbled_conn Returned None [] false O
               [Log (LogOptionsError (ErrOther "invalid character")); ConnClose]).
Proof.
  split; [reflexivity|].
  apply (X3_options_error_closes sample_gob garbled_conn
           (ErrOther "invalid character") eq_refl).
Defined.

Lemma X4_witness :
  reachable sample_gob sample_conn sample_midway
  /\ step sample_gob (Handler 0) None sample_midway = None
  /\ exists x, handlers sample_midway !! 0%nat = Some x
       /\ (hpc x = Exited
           \/ (exists hd b, hpc x = Sending hd b AtLock)
              /\ sending sample_midway = true
              /\ exists j y, j <> 0%nat /\ handlers sample_midway !! j = Some y
                             /\ holds_lock y = 1%nat).
Proof.
  assert (reachable sample_gob sample_conn sample_midway) as Hr
    by (exists (take 8 sample_schedule); reflexivity).
  assert (step sample_gob (Handler 0) None sample_midway = None) as Hs by reflexivity.
  split; [exact Hr|]. split; [exact Hs|].
  destruct (X4_no_goroutine_panics sample_gob sample_conn sample_midway
              (Handler 0) None Hr Hs) as [Hnone|Hx].
  - discriminate Hnone.
  - exact Hx.
Defined.

Lemma X5_witness :
  negotiate sample_gob sample_conn = inl (sample_gob sample_conn)
  /\ reachable sample_gob sample_conn sample_final
  /\ (length (handlers sample_final) <= 2)%nat.
Proof.
  assert (reachable sample_gob sample_conn sample_final) as Hr
    by (exists sample_schedule; reflexivity).
  split; [reflexivity|]. split; [exact Hr|].
  apply (X5_handlers_in_arrival_order sample_gob sample_conn
           (sample_gob sample_conn) sample_final eq_refl Hr).
Defined.

Lemma X6_witness :
  reachable sample_gob sample_conn sample_midway
  /\ exists a, Log (LogRequest (codec.mkHeader "Foo.Bar" 8 "boom") a)
               ∈ take 3 (trace sample_midway).
Proof.
  assert (reachable sample_gob sample_conn sample_midway) as Hr
    by (exists (take 8 sample_schedule); reflexivity).
  split; [exact Hr|].
  destruct (X6_request_logged_before_response sample_gob sample_conn sample_midway Hr)
    as [Hbefore _].
  apply (Hbefore (take 3 (trace sample_midway)) (drop 4 (trace sample_midway))
           (Handler 1) _ (codec.VString "geerpc resp 8")).
  reflexivity.
Defined.

Lemma X7_witness :
  reachable sample_gob sample_conn sample_midway
  /\ NoDup (callers (trace sample_midway)).
Proof.
  assert (reachable sample_gob sample_conn sample_midway) as Hr
    by (exists (take 8 sample_schedule); reflexivity).
  split; [exact Hr|].
  apply (X7_at_most_one_response_per_request sample_gob sample_conn sample_midway Hr).
Defined.

